(** * demo-code-analysis.py: pricing, registry, order store, shared counter

    A shallow embedding of [src/demos/demo-code-analysis.py].  Python [float]
    is IEEE 754 binary64, which is exactly Rocq's primitive [float]; Python
    [int] is unbounded and is modelled by [Z]; [str] is [string]; a [dict]
    with string keys is an association list in insertion order; a call that
    may raise returns an [outcome]. *)

From Stdlib Require Import ZArith List String Ascii Bool Lia.
From Stdlib Require Import Floats QArith Qround.
Import ListNotations.
Open Scope string_scope.
Open Scope list_scope.
Open Scope Z_scope.

Set Warnings "-inexact-float,-register-all".

(** ** Results of calls that may raise *)

(** The exceptions the modelled functions can raise. *)
Inductive exn : Type :=
| TypeError
| KeyError
| OperationalError.

Inductive outcome (A : Type) : Type :=
| Returned (a : A)
| Raised (e : exn).

Arguments Returned {A} a.
Arguments Raised {A} e.

Definition bind {A B : Type} (c : outcome A) (k : A -> outcome B) : outcome B :=
  match c with
  | Returned a => k a
  | Raised e => Raised e
  end.

Notation "x <- c ;; k" := (bind c (fun x => k))
  (at level 61, c at next level, right associativity).

(** ** OrderManager: pricing *)

Module Pricing.

Local Open Scope float_scope.

(** Class attributes of [OrderManager]. *)
Definition TAX : float := 0.0825.
Definition DISCOUNT_VIP : float := 0.2.
Definition DISCOUNT_REGULAR : float := 0.1.

(** [OrderManager.total_with_tax_and_discount(self, subtotal, user_type)].
    The integer literals [1] in [1 - discount] and [1 + self.TAX] are
    converted to the float [1.0] by Python's arithmetic. *)
Definition total_with_tax_and_discount (subtotal : float) (user_type : Z) : float :=
  let discount :=
    if (user_type =? 1)%Z then DISCOUNT_REGULAR
    else if (user_type =? 2)%Z then DISCOUNT_VIP
    else 0.0 in
  (subtotal * (1 - discount)) * (1 + TAX).

(** [compute_discount(price, user_type)], the module-level duplicate. *)
Definition compute_discount (price : float) (user_type : Z) : float :=
  if (user_type =? 1)%Z then price * 0.9
  else if (user_type =? 2)%Z then price * 0.8
  else price.

(** The specification's vocabulary: the three tiers, their rates, and the
    global tax rate. *)
Inductive Tier : Type := Regular | VIP | NoTier.

Definition discountRate (t : Tier) : float :=
  match t with
  | Regular => 0.10
  | VIP => 0.20
  | NoTier => 0.0
  end.

Definition TAX_RATE : float := 0.0825.

(** How the code reads its [user_type] argument: 1 is a regular customer,
    2 is a VIP, and every other integer gets no discount. *)
Definition tier_of_user_type (user_type : Z) : Tier :=
  if (user_type =? 1)%Z then Regular
  else if (user_type =? 2)%Z then VIP
  else NoTier.

(** The integer a caller passes for a tier ([main] passes [user_type=2] for
    the VIP total). *)
Definition user_type_of (t : Tier) : Z :=
  match t with
  | Regular => 1
  | VIP => 2
  | NoTier => 0
  end.

(** The factor [1 - discount] that the code computes for a tier. *)
Definition factor (t : Tier) : float :=
  match t with
  | Regular => 1 - DISCOUNT_REGULAR
  | VIP => 1 - DISCOUNT_VIP
  | NoTier => 1 - 0.0
  end.




End Pricing.

(** ** Order of binary64 numbers

    [Prim2SF] maps a primitive float to Rocq's specification of binary64
    ([spec_float], with [prec = 53] and [emax = 1024]); the multiplication of
    primitive floats is [SFmul], which rounds the exact product to nearest,
    ties to even.  The definitions below measure non-negative numbers on an
    integer scale, to compare the totals of different tiers. *)

Module FloatOrder.

(** [0 <= x] for a number that is not a NaN: both zeros, the positive
    finite numbers and [+infinity]. *)
Definition nonneg (x : spec_float) : bool :=
  match x with
  | S754_zero _ => true
  | S754_infinity s => negb s
  | S754_finite s _ _ => negb s
  | S754_nan => false
  end.

(** [X] lies in the interval [[m * U, (m + 1) * U)], at the place the
    location [l] says: on its lower end, below, at or above its middle. *)
Definition inbetween (U X m : Z) (l : location) : Prop :=
  0 <= m /\
  match l with
  | loc_Exact => X = m * U
  | loc_Inexact Lt => m * U < X /\ 2 * X < (2 * m + 1) * U
  | loc_Inexact Eq => 2 * X = (2 * m + 1) * U
  | loc_Inexact Gt => (2 * m + 1) * U < 2 * X /\ X < (m + 1) * U
  end.

(** A shift record, with its round and sticky bits, locates [X]. *)
Definition located (U X : Z) (mrs : shr_record) : Prop :=
  inbetween U X (shr_m mrs) (loc_of_shr_record mrs).

(** The second half of [binary_round_aux] for a positive sign: one more
    shift when rounding carried into a 54th bit, then the overflow test. *)
Definition finish (m e : Z) : spec_float :=
  let '(mrs, e') := shr_fexp prec emax m e loc_Exact in
  match shr_m mrs with
  | Z0 => S754_zero false
  | Z.pos q =>
      if e' <=? emax - prec then S754_finite false q e' else S754_infinity false
  | Z.neg _ => S754_nan
  end.

Section Scaled.

(** Values are counted in units of [2 ^ (- B)]. *)
Variable B : Z.

(** The value of a non-negative number on that scale; [+infinity] counts
    as [2 ^ 1024], above every finite binary64 number. *)
Definition valB (x : spec_float) : Z :=
  match x with
  | S754_zero _ => 0
  | S754_finite _ m e => Z.pos m * 2 ^ (e + B)
  | S754_infinity _ => 2 ^ (1024 + B)
  | S754_nan => 0
  end.

(** [v] is the binary64 rounding of the positive scaled value [X]: with
    [d] the number of binary digits of [X], the spacing is
    [2 ^ max (d - 53) (-1074)], [X] is located between two multiples of it
    and rounded to the nearest, ties to even; a result of [2 ^ 1024] or more
    is [+infinity]. *)
Definition rounds_to (X v : Z) : Prop :=
  exists (d m : Z) (l : location),
    - B <= d - 1 /\
    2 ^ (d - 1 + B) <= X < 2 ^ (d + B) /\
    inbetween (2 ^ (Z.max (d - 53) (-1074) + B)) X m l /\
    v = Z.min (round_nearest_even m l * 2 ^ (Z.max (d - 53) (-1074) + B))
              (2 ^ (1024 + B)).

End Scaled.

(** The scale used for the totals: the products of a binary64 number with
    the constants of the pricing formula have exponents above [-1200]. *)
Definition fval (x : float) : Z := valB 1200 (Prim2SF x).

Definition fnonneg (x : float) : bool := nonneg (Prim2SF x).

End FloatOrder.

(** ** Python values *)

Module Py.

(** The values [json.load] can produce, which is what [Any] ranges over in
    the functions modelled here.  A dict keeps its keys in insertion order;
    lookups take the first binding of a key. *)
Inductive pyval : Type :=
| PNone
| PBool (b : bool)
| PInt (z : Z)
| PFloat (f : float)
| PStr (s : string)
| PList (l : list pyval)
| PDict (d : list (string * pyval)).

Definition pydict : Type := list (string * pyval).

(** [bool(v)]: Python's truth value. *)
Definition truthy (v : pyval) : bool :=
  match v with
  | PNone => false
  | PBool b => b
  | PInt z => negb (z =? 0)%Z
  | PFloat f => negb (PrimFloat.eqb f 0%float)
  | PStr s => negb (String.eqb s EmptyString)
  | PList l => match l with [] => false | _ :: _ => true end
  | PDict d => match d with [] => false | _ :: _ => true end
  end.

(** [bool(d)] for a dict. *)
Definition dict_truthy (d : pydict) : bool :=
  match d with [] => false | _ :: _ => true end.

(** [d.get(k)], with [None] for the missing key. *)
Fixpoint dict_get (d : pydict) (k : string) : option pyval :=
  match d with
  | [] => None
  | (k', v) :: rest => if String.eqb k' k then Some v else dict_get rest k
  end.

(** [k in d]. *)
Definition dict_has (d : pydict) (k : string) : bool :=
  match dict_get d k with Some _ => true | None => false end.

(** [d[k] = v]: an existing key keeps its position, a new key goes last. *)
Fixpoint dict_set (d : pydict) (k : string) (v : pyval) : pydict :=
  match d with
  | [] => [(k, v)]
  | (k', v') :: rest =>
      if String.eqb k' k then (k', v) :: rest else (k', v') :: dict_set rest k v
  end.

(** [v == s] for a string [s]: only a string equals a string. *)
Definition eq_str (v : pyval) (s : string) : bool :=
  match v with
  | PStr t => String.eqb t s
  | _ => false
  end.

(** [needle in hay] for two strings: the substring test. *)
Fixpoint contains (needle hay : string) : bool :=
  prefix needle hay
  || match hay with
     | EmptyString => false
     | String _ rest => contains needle rest
     end.

(** [key in v] for a string [key]: key membership for a dict, element
    membership for a list, substring for a string, [TypeError] for a value
    that is not a container. *)
Definition py_in (key : string) (v : pyval) : outcome bool :=
  match v with
  | PDict d => Returned (dict_has d key)
  | PList l => Returned (existsb (fun x => eq_str x key) l)
  | PStr s => Returned (contains key s)
  | PNone | PBool _ | PInt _ | PFloat _ => Raised TypeError
  end.

(** [v[key]] for a string [key]. *)
Definition py_getitem (v : pyval) (key : string) : outcome pyval :=
  match v with
  | PDict d =>
      match dict_get d key with
      | Some x => Returned x
      | None => Raised KeyError
      end
  | _ => Raised TypeError
  end.

(** [len(v)].  A string is held as the octets of its UTF-8 form, so for a
    string the number is that of its octets: it is zero exactly when
    [len] is, which is all that the functions here ask of it. *)
Definition py_len (v : pyval) : outcome nat :=
  match v with
  | PStr s => Returned (String.length s)
  | PList l => Returned (List.length l)
  | PDict d => Returned (List.length d)
  | PNone | PBool _ | PInt _ | PFloat _ => Raised TypeError
  end.

End Py.

(** ** UserManager *)

Module Registry.
Import Py.

(** [self.users]: the registered records, in registration order. *)
Definition users : Type := list pydict.

(** [UserManager.add_user(self, u)]: [u] is a dict or [None].  The method
    has no [return] and no [raise]; the result is the new [self.users]. *)
Definition add_user (us : users) (u : option pydict) : users :=
  match u with
  | Some d => if dict_truthy d then us ++ [d] else us
  | None => us
  end.

(** [user.get("username") == username]. *)
Definition has_username (user : pydict) (username : string) : bool :=
  match dict_get user "username" with
  | Some v => eq_str v username
  | None => false
  end.

(** [UserManager.update_user_age(self, username, age)]: the loop stops at
    the first record whose username matches, stores [age] under ["age"] and
    returns [True]; it returns [False] when the loop runs out.  The list
    holds the records as values: it is what [self.users] shows as long as
    no dict object is registered twice; [Objects.update_user_age] below has
    the objects themselves. *)
Fixpoint update_user_age (us : users) (username : string) (age : pyval)
  : users * bool :=
  match us with
  | [] => ([], false)
  | user :: rest =>
      if has_username user username
      then (dict_set user "age" age :: rest, true)
      else let (rest', found) := update_user_age rest username age in
           (user :: rest', found)
  end.

(** [UserManager.get_all_users(self)]: a copy of the list. *)
Definition get_all_users (us : users) : list pydict := us.

(** [UserManager.find_user(self, username)]: the query text, built with an
    f-string. *)
Definition find_user (username : string) : string :=
  "SELECT * FROM users WHERE username = '" ++ username ++ "'".

(** [UserManager._find_user_safe(self, username)]: query text and
    parameter tuple, kept apart. *)
Definition _find_user_safe (username : string) : string * list pyval :=
  ("SELECT * FROM users WHERE username = ?"%string, [PStr username]).

(** The loop of [main] over the loaded records:
    [for u in data: manager.add_user(u)], on a new [UserManager]. *)
Definition load_users (data : list (option pydict)) : users :=
  fold_left add_user data [].

(** What [add_user] appends for one record: the record when it is a
    non-empty dict, nothing otherwise. *)
Definition accepted (u : option pydict) : list pydict :=
  match u with
  | Some d => if dict_truthy d then [d] else []
  | None => []
  end.

End Registry.

(** ** OrderManager.create_order and init_db *)

Module OrderStore.
Import Py.

(** The calls made on the [sqlite3] module, connection and cursor. *)
Inductive db_call : Type :=
| Connect (db_path : string)
| Cursor
| Execute (sql : string) (parameters : list pyval)
| Commit
| Close.

(** A database is the list of the names its schema holds (tables, views
    and indexes); the database files are keyed by the path they are opened
    with. *)
Definition database : Type := list string.
Definition files : Type := list (string * database).

Fixpoint lookup_file (fs : files) (path : string) : option database :=
  match fs with
  | [] => None
  | (p, db) :: rest => if String.eqb p path then Some db else lookup_file rest path
  end.

Fixpoint store_file (fs : files) (path : string) (db : database) : files :=
  match fs with
  | [] => [(path, db)]
  | (p, db') :: rest =>
      if String.eqb p path then (p, db) :: rest
      else (p, db') :: store_file rest path db
  end.

(** The two names that open no file: [":memory:"] is a private database
    in memory, the empty string a private temporary database; both are
    gone when the connection is closed. *)
Definition private (db_path : string) : bool :=
  String.eqb db_path ":memory:" || String.eqb db_path "".

(** [sqlite3.connect(db_path)]: a private name opens a new, empty
    database; a path opens that file, empty when it does not exist yet. *)
Definition connect (fs : files) (db_path : string) : database :=
  if private db_path then []
  else match lookup_file fs db_path with
       | Some db => db
       | None => []
       end.

(** SQLite compares the names of a schema without regard to the case of
    the ASCII letters. *)
Definition ascii_lower (c : ascii) : ascii :=
  let n := N_of_ascii c in
  if ((65 <=? n) && (n <=? 90))%N then ascii_of_N (n + 32) else c.

Fixpoint lower (s : string) : string :=
  match s with
  | EmptyString => EmptyString
  | String c rest => String (ascii_lower c) (lower rest)
  end.

Definition same_name (a b : string) : bool := String.eqb (lower a) (lower b).

(** SQLite's [CREATE TABLE name(...)] without [IF NOT EXISTS]: it raises
    [sqlite3.OperationalError] when the schema has the name already. *)
Definition create_table (name : string) (db : database) : outcome database :=
  if existsb (same_name name) db then Raised OperationalError
  else Returned (name :: db).

(** SQLite's [CREATE TABLE IF NOT EXISTS name(...)], for comparison. *)
Definition create_table_if_not_exists (name : string) (db : database)
  : outcome database :=
  if existsb (same_name name) db then Returned db
  else Returned (name :: db).

(** [conn.commit(); conn.close()]: a private database is dropped with its
    connection; a file keeps what was committed. *)
Definition commit_close (fs : files) (db_path : string) (db : database) : files :=
  if private db_path then fs else store_file fs db_path db.

Section CreateOrder.

(** [str(x)] for a float [x], as an f-string field formats it. *)
Variable float_str : float -> string.

(** What SQLite does with a statement text that is executed without
    parameters on a database: the database after the statement, or the
    exception that [cur.execute] raises (a table that is missing, a text
    that is no single statement). *)
Variable execute : string -> database -> outcome database.

(** The f-string of [create_order]. *)
Definition create_order_sql (username : string) (amount : float) : string :=
  "INSERT INTO orders(user, amount) VALUES ('" ++ username ++ "', "
    ++ float_str amount ++ ")".

(** [OrderManager.create_order(self, username, amount)] with [self.db_path]
    as [db_path], on the files [fs]: the calls made, and the files after
    the call or the exception raised.  [cur.execute] is called with the
    query text alone, so the parameter sequence is empty; when it raises,
    the exception leaves the method, [commit] and [close] are not reached
    and the files are as before. *)
Definition create_order
           (db_path username : string) (amount : float) (fs : files)
  : list db_call * outcome files :=
  let conn := connect fs db_path in
  let sql := create_order_sql username amount in
  match execute sql conn with
  | Returned db =>
      ([Connect db_path; Cursor; Execute sql []; Commit; Close],
       Returned (commit_close fs db_path db))
  | Raised e =>
      ([Connect db_path; Cursor; Execute sql []], Raised e)
  end.

End CreateOrder.

(** [init_db(db_path)] on the files [fs].  When [execute] raises, nothing
    was committed and the files are as before. *)
Definition init_db (db_path : string) (fs : files) : outcome files :=
  let conn := connect fs db_path in
  db <- create_table "orders" conn ;;
  Returned (commit_close fs db_path db).

End OrderStore.

(** ** process_user_data *)

Module UserData.
Import Py.

(** The nested conditions of the loop body for one [item]: [true] when the
    item is appended to [result].  The membership tests, subscripts and
    [len] are those of the source, in its order, and raise as Python does. *)
Definition selected (item : pydict) : outcome bool :=
  if dict_truthy item then
    if dict_has item "user" then
      user <- py_getitem (PDict item) "user" ;;
      if truthy user then
        has_active <- py_in "active" user ;;
        if has_active then
          active <- py_getitem user "active" ;;
          if truthy active then
            has_permissions <- py_in "permissions" user ;;
            if has_permissions then
              permissions <- py_getitem user "permissions" ;;
              n <- py_len permissions ;;
              Returned (0 <? n)%nat
            else Returned false
          else Returned false
        else Returned false
      else Returned false
    else Returned false
  else Returned false.

(** The [for] loop, with [result] as accumulator. *)
Fixpoint process_loop (data result : list pydict) : outcome (list pydict) :=
  match data with
  | [] => Returned result
  | item :: rest =>
      keep <- selected item ;;
      process_loop rest (if keep then result ++ [item] else result)
  end.

(** [process_user_data(data)]. *)
Definition process_user_data (data : list pydict) : outcome (list pydict) :=
  process_loop data [].

(** The claim's description of the items kept: non-empty, with a ["user"]
    key whose value is non-empty, whose user has an ["active"] key with a
    truthy value and a ["permissions"] key with a non-empty sequence. *)
Definition nonempty_sequence (v : pyval) : bool :=
  match v with
  | PList (_ :: _) => true
  | PStr (String _ _) => true
  | _ => false
  end.

Definition described (item : pydict) : bool :=
  dict_truthy item
  && match dict_get item "user" with
     | Some (PDict user) =>
         dict_truthy user
         && match dict_get user "active" with
            | Some active => truthy active
            | None => false
            end
         && match dict_get user "permissions" with
            | Some permissions => nonempty_sequence permissions
            | None => false
            end
     | _ => false
     end.

(** The values [len] takes to a positive number: a non-empty list, string
    or dict. *)
Definition nonempty_sized (v : pyval) : bool :=
  match v with
  | PList (_ :: _) => true
  | PStr (String _ _) => true
  | PDict (_ :: _) => true
  | _ => false
  end.


(** The description with a sized value in the place of the sequence. *)
Definition described_sized (item : pydict) : bool :=
  dict_truthy item
  && match dict_get item "user" with
     | Some (PDict user) =>
         dict_truthy user
         && match dict_get user "active" with
            | Some active => truthy active
            | None => false
            end
         && match dict_get user "permissions" with
            | Some permissions => nonempty_sized permissions
            | None => false
            end
     | _ => false
     end.


(** A sample input: an active user with permissions, an inactive one, a
    record without a user, and a user whose fields are an integer and a
    string. *)
Definition sample_records : list pydict :=
  [ [("user", PDict [("active", PBool true);
                     ("permissions", PList [PStr "read"])])];
    [("user", PDict [("active", PBool false);
                     ("permissions", PList [PStr "read"])])];
    [("name", PStr "no user")];
    [("user", PDict [("active", PInt 1); ("permissions", PStr "rw")])] ].

(** The decision of the loop body, for an item on which it does not
    raise: [true] when the item is appended. *)
Definition kept (item : pydict) : bool :=
  match selected item with
  | Returned b => b
  | Raised _ => false
  end.

(** The loop body raises on the item. *)
Definition raises (item : pydict) : bool :=
  match selected item with
  | Returned _ => false
  | Raised _ => true
  end.

End UserData.

(** ** The shared counter and its worker threads *)

Module Counter.

(** The two accesses to the global that [SHARED_COUNTER += 1] makes. *)
Inductive action : Type :=
| Read    (* load the value of SHARED_COUNTER *)
| Write.  (* store the loaded value plus one *)

Fixpoint increments (k : nat) : list action :=
  match k with
  | O => []
  | S k' => Read :: Write :: increments k'
  end.

(** [increment_shared_counter(n)]: [for _ in range(n): SHARED_COUNTER += 1];
    [range(n)] is empty for a negative [n].  The function takes no lock
    ("SHARED_COUNTER is modified from multiple threads without locks"), so
    each [+=] is a read and a write between which another thread may run. *)
Definition increment_shared_counter (n : Z) : list action :=
  increments (Z.to_nat n).

(** A thread: the accesses it still has to make, and the value it has
    loaded and not yet written back. *)
Record thread : Type := mkThread {
  todo : list action;
  loaded : option Z
}.

Record world : Type := mkWorld {
  SHARED_COUNTER : Z;
  threads : list thread
}.

(** [threading.Thread(target=increment_shared_counter, args=(n,))]. *)
Definition spawn (n : Z) : thread := mkThread (increment_shared_counter n) None.

(** The threads of [ns], started on a counter that holds [counter]. *)
Definition start (counter : Z) (ns : list Z) : world :=
  mkWorld counter (map spawn ns).

(** One access of one thread. *)
Definition step_thread (counter : Z) (t : thread) : option (Z * thread) :=
  match todo t, loaded t with
  | Read :: rest, _ => Some (counter, mkThread rest (Some counter))
  | Write :: rest, Some v => Some (v + 1, mkThread rest None)
  | _, _ => None
  end.

Fixpoint step_at (i : nat) (counter : Z) (ts : list thread)
  : option (Z * list thread) :=
  match ts, i with
  | [], _ => None
  | t :: rest, O =>
      match step_thread counter t with
      | Some (c, t') => Some (c, t' :: rest)
      | None => None
      end
  | t :: rest, S j =>
      match step_at j counter rest with
      | Some (c, rest') => Some (c, t :: rest')
      | None => None
      end
  end.

Definition step (i : nat) (st : world) : option world :=
  match step_at i (SHARED_COUNTER st) (threads st) with
  | Some (c, ts) => Some (mkWorld c ts)
  | None => None
  end.

(** A schedule names the thread that runs at each step. *)
Fixpoint run (schedule : list nat) (st : world) : option world :=
  match schedule with
  | [] => Some st
  | i :: rest =>
      match step i st with
      | Some st' => run rest st'
      | None => None
      end
  end.

(** [t.join()] returns once the thread has nothing left to do. *)
Definition finished (t : thread) : bool :=
  match todo t with
  | [] => true
  | _ :: _ => false
  end.

Definition joined (st : world) : bool := forallb finished (threads st).

(** The value of the counter after the threads of [ns], started at 0 as in
    [main], ran under [schedule] and were all joined; [None] when the
    schedule is not a complete run of the threads. *)
Definition final_value (ns : list Z) (schedule : list nat) : option Z :=
  match run schedule (start 0 ns) with
  | Some st => if joined st then Some (SHARED_COUNTER st) else None
  | None => None
  end.

(** The increments requested of the threads: [range(n)] has [max n 0]
    elements. *)
Definition requested (ns : list Z) : Z :=
  fold_right (fun n acc => Z.of_nat (Z.to_nat n) + acc) 0 ns.

(** Each thread runs to completion before the next one starts. *)
Fixpoint serial_from (i : nat) (ns : list Z) : list nat :=
  match ns with
  | [] => []
  | n :: rest => repeat i (2 * Z.to_nat n) ++ serial_from (S i) rest
  end.

(** All threads read, then all threads write, [k] times over. *)
Fixpoint lockstep (n_threads k : nat) : list nat :=
  match k with
  | O => []
  | S k' => seq 0 n_threads ++ seq 0 n_threads ++ lockstep n_threads k'
  end.

(** The writes a thread still has to make, and those of all threads. *)
Fixpoint writes (acts : list action) : Z :=
  match acts with
  | [] => 0
  | Read :: rest => writes rest
  | Write :: rest => 1 + writes rest
  end.

Definition pending (ts : list thread) : Z :=
  fold_right (fun t acc => writes (todo t) + acc) 0 ts.

(** What holds of every state that the threads of [main] can reach, for
    a counter started at 0 and [bound] increments requested: the counter
    and every loaded value are not negative and, with the writes still to
    come, do not exceed [bound]; and the counter is positive once a write
    was made. *)
Definition within (bound : Z) (st : world) : Prop :=
  0 <= SHARED_COUNTER st
  /\ SHARED_COUNTER st + pending (threads st) <= bound
  /\ (1 <= SHARED_COUNTER st \/ pending (threads st) = bound)
  /\ Forall (fun t => match loaded t with
                      | Some v => 0 <= v /\ v + pending (threads st) <= bound
                      | None => True
                      end) (threads st).

(** What holds when a single thread runs, as in the module's test: no
    increment is missing, and a loaded value is the current one. *)
Definition alone (bound : Z) (st : world) : Prop :=
  exists t : thread,
    threads st = [t]
    /\ SHARED_COUNTER st + writes (todo t) = bound
    /\ match loaded t with
       | Some v => v = SHARED_COUNTER st
       | None => True
       end.

End Counter.

(** ** UserManager, with object identity

    [self.users] is a list object that holds references to dict objects:
    a caller keeps the dict it registered, [get_all_users_old] hands out
    the list itself and [get_all_users] a new list of the same dicts.  The
    store below gives every list and every dict an address. *)

Module Objects.
Import Py.

Definition ref : Type := nat.

Record heap : Type := mkHeap {
  dicts : list pydict;      (* the dict objects, by address *)
  lists : list (list ref)   (* the list objects: addresses of dicts *)
}.

Fixpoint update_nth {A : Type} (i : nat) (f : A -> A) (l : list A) : list A :=
  match l, i with
  | [], _ => []
  | x :: rest, O => f x :: rest
  | x :: rest, S j => x :: update_nth j f rest
  end.

Definition dict_at (h : heap) (a : ref) : pydict := nth a (dicts h) [].

Definition list_at (h : heap) (l : ref) : list ref := nth l (lists h) [].

(** The records a list object shows. *)
Definition view (h : heap) (l : ref) : list pydict :=
  map (dict_at h) (list_at h l).

(** [l.append(x)]. *)
Definition list_append (h : heap) (l x : ref) : heap :=
  mkHeap (dicts h) (update_nth l (fun content => content ++ [x]) (lists h)).

(** [list(l)]: a new list object with the same elements. *)
Definition list_copy (h : heap) (l : ref) : heap * ref :=
  (mkHeap (dicts h) (lists h ++ [list_at h l]), List.length (lists h)).

(** [d[k] = v] on the dict object at [a]. *)
Definition dict_setitem (h : heap) (a : ref) (k : string) (v : pyval) : heap :=
  mkHeap (update_nth a (fun d => dict_set d k v) (dicts h)) (lists h).

(** [UserManager.add_user(self, u)]; [self] is the address of [self.users]
    and [u] is [None] or the address of a dict. *)
Definition add_user (h : heap) (self : ref) (u : option ref) : heap :=
  match u with
  | Some a => if dict_truthy (dict_at h a) then list_append h self a else h
  | None => h
  end.

(** The first element of the loop whose username matches. *)
Fixpoint first_match (h : heap) (username : string) (rs : list ref)
  : option ref :=
  match rs with
  | [] => None
  | a :: rest =>
      if Registry.has_username (dict_at h a) username then Some a
      else first_match h username rest
  end.

(** [UserManager.update_user_age(self, username, age)]: the assignment
    [user["age"] = age] changes the dict object the loop stopped at. *)
Definition update_user_age
           (h : heap) (self : ref) (username : string) (age : pyval)
  : heap * bool :=
  match first_match h username (list_at h self) with
  | Some a => (dict_setitem h a "age" age, true)
  | None => (h, false)
  end.

(** [UserManager.get_all_users_old(self)]: [return self.users]. *)
Definition get_all_users_old (h : heap) (self : ref) : heap * ref := (h, self).

(** [UserManager.get_all_users(self)]: [return list(self.users)]. *)
Definition get_all_users (h : heap) (self : ref) : heap * ref :=
  list_copy h self.

(** A manager whose list, at address 0, holds two dict objects, the
    first of them twice. *)
Definition sample_heap : heap :=
  mkHeap [ [("username", PStr "bob")]; [("username", PStr "eve")] ]
         [ [0; 0; 1]%nat ].

End Objects.

(** ** deprecated_formatter and its default argument *)

Module Formatter.
Import Py.

(** A Python [str] is a sequence of code points, and [len] counts them. *)
Definition text : Type := list N.

Definition len (s : text) : nat := List.length s.

Section DeprecatedFormatter.

(** [str(data)] and [str.upper], which the function calls. *)
Variable py_str : pyval -> text.
Variable upper : text -> text.

(** The text the function returns. *)
Definition formatted (data : pyval) (uppercase : bool) : text :=
  if uppercase then upper (py_str data) else py_str data.

(** [deprecated_formatter(data, uppercase, extras)].  The default of
    [extras] is one list object, made when the [def] is executed and used
    by every call that leaves the argument out; [default] is what that
    list holds.  The result is the returned text, the default list after
    the call, and the caller's list after the call when one was passed. *)
Definition deprecated_formatter
           (default : list nat) (data : pyval) (uppercase : bool)
           (extras : option (list nat))
  : text * list nat * option (list nat) :=
  let s := formatted data uppercase in
  match extras with
  | None => (s, default ++ [len s], None)
  | Some l => (s, default, Some (l ++ [len s]))
  end.

(** A run of calls that all leave [extras] out: the texts returned, and
    the default list at the end. *)
Fixpoint format_all (default : list nat) (inputs : list (pyval * bool))
  : list text * list nat :=
  match inputs with
  | [] => ([], default)
  | (data, uppercase) :: rest =>
      let '(s, default', _) := deprecated_formatter default data uppercase None in
      let '(texts, final) := format_all default' rest in
      (s :: texts, final)
  end.

End DeprecatedFormatter.

End Formatter.

(** ** random_backoff *)

Module Backoff.

(** [random_backoff()]: [time.sleep(random.random() * 3)].  [r] is what
    [random.random()] returned, a float in the range [0.0 <= r < 1.0]; the
    result is the number of seconds the call sleeps. *)
Definition random_backoff (r : float) : float := (r * 3)%float.

(** [monkey_patch_random()]: from then on [random.random()] is
    [lambda: 0.42]. *)
Definition patched_random : float := 0.42%float.

End Backoff.

(** ** Theorems *)

Module FloatOrderFacts.
Import FloatOrder.

(** [digits2_pos p] is the number of binary digits of [p]. *)
Lemma digits2_pos_bounds (p : positive) :
  2 ^ (Z.pos (digits2_pos p) - 1) <= Z.pos p < 2 ^ Z.pos (digits2_pos p).
Proof.
  induction p as [p IH | p IH |]; cbn [digits2_pos].
  - rewrite Pos2Z.inj_succ.
    replace (Z.succ (Z.pos (digits2_pos p)) - 1) with (Z.succ (Z.pos (digits2_pos p) - 1)) by lia.
    rewrite !Z.pow_succ_r by lia. lia.
  - rewrite Pos2Z.inj_succ.
    replace (Z.succ (Z.pos (digits2_pos p)) - 1) with (Z.succ (Z.pos (digits2_pos p) - 1)) by lia.
    rewrite !Z.pow_succ_r by lia. lia.
  - cbn. lia.
Qed.

(** One right shift doubles the spacing and keeps [X] located. *)
Lemma shr_1_located (U X : Z) (mrs : shr_record) :
  0 < U -> located U X mrs -> located (2 * U) X (shr_1 mrs).
Proof.
  unfold located, inbetween. intros HU.
  destruct mrs as [m r s].
  destruct m as [|p|p]; [| destruct p as [p|p|] | ];
    destruct r, s; cbn [shr_1 shr_m loc_of_shr_record orb]; lia.
Qed.

(** So do [p] shifts, the spacing growing by [2 ^ p]. *)
Lemma iter_pos_located (X : Z) (p : positive) :
  forall (U : Z) (mrs : shr_record),
    0 < U ->
    located U X mrs -> located (2 ^ Z.pos p * U) X (SpecFloat.iter_pos shr_1 p mrs).
Proof.
  induction p as [p IH | p IH |]; intros U mrs HU H; cbn [SpecFloat.iter_pos].
  - assert (Hp : 0 < 2 ^ Z.pos p) by (apply Z.pow_pos_nonneg; lia).
    replace (2 ^ Z.pos p~1 * U) with (2 ^ Z.pos p * (2 ^ Z.pos p * (2 * U))).
    + apply IH; [nia|]. apply IH; [lia|]. apply shr_1_located; assumption.
    + replace (Z.pos p~1) with (Z.pos p + Z.pos p + 1) by lia.
      rewrite !Z.pow_add_r by lia. change (2 ^ 1) with 2. ring.
  - assert (Hp : 0 < 2 ^ Z.pos p) by (apply Z.pow_pos_nonneg; lia).
    replace (2 ^ Z.pos p~0 * U) with (2 ^ Z.pos p * (2 ^ Z.pos p * U)).
    + apply IH; [nia|]. apply IH; assumption.
    + replace (Z.pos p~0) with (Z.pos p + Z.pos p) by lia.
      rewrite !Z.pow_add_r by lia. ring.
  - change (2 ^ 1) with 2. apply shr_1_located; assumption.
Qed.

(** A located value lies in its interval. *)
Lemma inbetween_bounds (U X m : Z) (l : location) :
  0 < U -> inbetween U X m l -> 0 <= m /\ m * U <= X < (m + 1) * U.
Proof.
  unfold inbetween. intros HU [Hm H].
  destruct l as [|[| |]]; lia.
Qed.

(** Rounding moves to one end of the interval. *)
Lemma round_nearest_even_bounds (m : Z) (l : location) :
  m <= round_nearest_even m l <= m + 1.
Proof.
  unfold round_nearest_even.
  destruct l as [|[| |]]; try destruct (Z.even m); lia.
Qed.

(** At one spacing, rounding to nearest even is monotone. *)
Lemma round_same_unit (U X1 X2 m1 m2 : Z) (l1 l2 : location) :
  0 < U ->
  inbetween U X1 m1 l1 -> inbetween U X2 m2 l2 -> X1 <= X2 ->
  round_nearest_even m1 l1 <= round_nearest_even m2 l2.
Proof.
  intros HU H1 H2 HX.
  pose proof (inbetween_bounds _ _ _ _ HU H1) as [_ B1].
  pose proof (inbetween_bounds _ _ _ _ HU H2) as [_ B2].
  assert (Hle : m1 <= m2) by nia.
  destruct (Z.eq_dec m1 m2) as [->|Hne].
  - unfold inbetween in H1, H2. unfold round_nearest_even.
    destruct l1 as [|[| |]], l2 as [|[| |]]; try destruct (Z.even m2); lia.
  - pose proof (round_nearest_even_bounds m1 l1).
    pose proof (round_nearest_even_bounds m2 l2). lia.
Qed.

Section ScaledFacts.
Variable B : Z.
Hypothesis HB : 1074 <= B.

(** Rounding is monotone across spacings too: when the spacings differ,
    a power of two that both formats hold lies between the two inputs. *)
Lemma rounds_to_mono (X1 X2 v1 v2 : Z) :
  rounds_to B X1 v1 -> rounds_to B X2 v2 -> X1 <= X2 -> v1 <= v2.
Proof.
  intros (d1 & m1 & l1 & Hd1 & HX1 & Hin1 & ->)
         (d2 & m2 & l2 & Hd2 & HX2 & Hin2 & ->) HX.
  set (f1 := Z.max (d1 - 53) (-1074)) in *.
  set (f2 := Z.max (d2 - 53) (-1074)) in *.
  assert (Hd : d1 <= d2).
  { destruct (Z_le_gt_dec d1 d2) as [|Hgt]; [assumption|exfalso].
    assert (2 ^ (d2 + B) <= 2 ^ (d1 - 1 + B)) by (apply Z.pow_le_mono_r; lia).
    lia. }
  assert (HU1 : 0 < 2 ^ (f1 + B)) by (apply Z.pow_pos_nonneg; lia).
  assert (HU2 : 0 < 2 ^ (f2 + B)) by (apply Z.pow_pos_nonneg; lia).
  apply Z.min_le_compat_r.
  destruct (Z.eq_dec f1 f2) as [E|NE].
  - rewrite <- E in *.
    apply Z.mul_le_mono_nonneg_r; [lia|].
    eapply round_same_unit; eauto.
  - assert (Hf : f1 < f2) by lia.
    assert (Hf2 : f2 = d2 - 53) by lia.
    pose proof (inbetween_bounds _ _ _ _ HU1 Hin1) as [Hm1 B1].
    pose proof (inbetween_bounds _ _ _ _ HU2 Hin2) as [Hm2 B2].
    pose proof (round_nearest_even_bounds m1 l1) as R1.
    pose proof (round_nearest_even_bounds m2 l2) as R2.
    (* [2 ^ (d2 - 1)] is a multiple of both spacings and separates the inputs *)
    assert (HP1 : 2 ^ (d2 - 1 + B) = 2 ^ (d2 - 1 - f1) * 2 ^ (f1 + B)).
    { rewrite <- Z.pow_add_r by lia. f_equal. lia. }
    assert (HP2 : 2 ^ (d2 - 1 + B) = 4503599627370496 * 2 ^ (f2 + B)).
    { change 4503599627370496 with (2 ^ 52).
      rewrite <- Z.pow_add_r by lia. f_equal. lia. }
    assert (HX1' : X1 < 2 ^ (d2 - 1 + B)).
    { assert (2 ^ (d1 + B) <= 2 ^ (d2 - 1 + B)) by (apply Z.pow_le_mono_r; lia).
      lia. }
    apply Z.le_trans with (2 ^ (d2 - 1 + B)).
    + rewrite HP1. apply Z.mul_le_mono_nonneg_r; [lia|].
      assert (m1 < 2 ^ (d2 - 1 - f1)) by nia. lia.
    + rewrite HP2. apply Z.mul_le_mono_nonneg_r; [lia|].
      assert (4503599627370496 < m2 + 1) by nia. lia.
Qed.

(** The exponent function of binary64. *)
Lemma fexp_eq (x : Z) : fexp prec emax x = Z.max (x - 53) (-1074).
Proof. reflexivity. Qed.

(** [shr] by a count that is not positive does nothing. *)
Lemma shr_nonpos (mrs : shr_record) (e n : Z) :
  n <= 0 -> shr mrs e n = (mrs, e).
Proof. destruct n; [reflexivity | lia | reflexivity]. Qed.

(** [shr] by [n] moves the exponent by [n] and keeps [X] located. *)
Lemma shr_located (U X : Z) (mrs : shr_record) (e n : Z) :
  0 <= n -> 0 < U -> located U X mrs ->
  snd (shr mrs e n) = e + n /\ located (2 ^ n * U) X (fst (shr mrs e n)).
Proof.
  intros Hn HU H. destruct n as [|p|p]; cbn [shr fst snd].
  - split; [lia|]. now rewrite Z.pow_0_r, Z.mul_1_l.
  - split; [reflexivity|]. now apply iter_pos_located.
  - lia.
Qed.

(** [binary_round_aux] is a shift to the target exponent, the rounding of
    the mantissa, and [finish]. *)
Lemma binary_round_aux_finish (m e : Z) (l : location) :
  binary_round_aux prec emax false m e l
  = let '(mrs, e') := shr_fexp prec emax m e l in
    finish (round_nearest_even (shr_m mrs) (loc_of_shr_record mrs)) e'.
Proof.
  unfold binary_round_aux, finish.
  destruct (shr_fexp prec emax m e l) as [mrs e']. reflexivity.
Qed.

(** [finish] keeps the value of a rounded mantissa of at most 53 bits
    (or exactly [2 ^ 53], after a carry), and answers [+infinity] from
    [2 ^ 1024] on. *)
Lemma finish_val (m e : Z) :
  -1074 <= e ->
  0 <= m <= 9007199254740992 ->
  (972 <= e -> 4503599627370496 <= m) ->
  nonneg (finish m e) = true
  /\ valB B (finish m e) = Z.min (m * 2 ^ (e + B)) (2 ^ (1024 + B)).
Proof.
  intros He Hm Hbig.
  assert (HU : 0 < 2 ^ (e + B)) by (apply Z.pow_pos_nonneg; lia).
  unfold finish, shr_fexp. rewrite fexp_eq.
  destruct (Z.eq_dec m 9007199254740992) as [->|Hne].
  - (* a carry out of the 53 bits: one more shift *)
    change (Zdigits2 9007199254740992) with 54.
    replace (Z.max (54 + e - 53) (-1074) - e) with 1 by lia.
    cbn [shr_record_of_loc shr SpecFloat.iter_pos shr_1 shr_m orb].
    change (emax - prec) with 971.
    assert (E1 : 2 ^ (e + 1 + B) = 2 * 2 ^ (e + B)).
    { replace (e + 1 + B) with (Z.succ (e + B)) by lia.
      apply Z.pow_succ_r. lia. }
    destruct (Z.leb_spec (e + 1) 971) as [Hle|Hgt]; cbn [nonneg negb valB].
    + split; [reflexivity|].
      rewrite E1. rewrite Z.min_l; [ring|].
      replace (1024 + B) with ((1024 - e) + (e + B)) by lia.
      rewrite (Z.pow_add_r 2 (1024 - e) (e + B)) by lia.
      apply Z.mul_le_mono_nonneg_r; [lia|].
      apply Z.le_trans with (2 ^ 54); [vm_compute; discriminate|].
      apply Z.pow_le_mono_r; lia.
    + split; [reflexivity|].
      rewrite Z.min_r; [reflexivity|].
      apply Z.le_trans with (2 ^ 53 * 2 ^ (971 + B)).
      * rewrite <- Z.pow_add_r by lia. apply Z.pow_le_mono_r; lia.
      * change (2 ^ 53) with 9007199254740992.
        apply Z.mul_le_mono_nonneg_l; [lia|].
        apply Z.pow_le_mono_r; lia.
  - destruct m as [|q|q]; [| |lia].
    + (* the value rounds to zero *)
      change (Zdigits2 0) with 0.
      rewrite shr_nonpos by lia.
      cbn [shr_record_of_loc shr_m nonneg valB].
      split; [reflexivity|].
      rewrite Z.mul_0_l, Z.min_l; [reflexivity|].
      apply Z.pow_nonneg. lia.
    + cbn [Zdigits2].
      pose proof (digits2_pos_bounds q) as [Hlo Hhi].
      assert (Hdig : Z.pos (digits2_pos q) <= 53).
      { destruct (Z_le_gt_dec (Z.pos (digits2_pos q)) 53) as [|Hgt];
          [assumption|exfalso].
        assert (2 ^ 53 <= 2 ^ (Z.pos (digits2_pos q) - 1))
          by (apply Z.pow_le_mono_r; lia).
        change (2 ^ 53) with 9007199254740992 in *. lia. }
      rewrite shr_nonpos by lia.
      cbn [shr_record_of_loc shr_m].
      change (emax - prec) with 971.
      destruct (Z.leb_spec e 971) as [Hle|Hgt]; cbn [nonneg negb valB].
      * split; [reflexivity|].
        rewrite Z.min_l; [reflexivity|].
        replace (1024 + B) with ((1024 - e) + (e + B)) by lia.
        rewrite (Z.pow_add_r 2 (1024 - e) (e + B)) by lia.
        apply Z.mul_le_mono_nonneg_r; [lia|].
        apply Z.le_trans with (2 ^ 53); [change (2 ^ 53) with 9007199254740992; lia|].
        apply Z.pow_le_mono_r; lia.
      * split; [reflexivity|].
        rewrite Z.min_r; [reflexivity|].
        apply Z.le_trans with (2 ^ 52 * 2 ^ (972 + B)).
        -- rewrite <- Z.pow_add_r by lia. apply Z.pow_le_mono_r; lia.
        -- apply Z.mul_le_mono_nonneg.
           ++ vm_compute; discriminate.
           ++ change (2 ^ 52) with 4503599627370496. lia.
           ++ apply Z.pow_nonneg; lia.
           ++ apply Z.pow_le_mono_r; lia.
Qed.

(** The rounding of a positive mantissa [m] at exponent [e], when [e] is
    not above the target exponent. *)
Lemma binary_round_aux_rounds (m : positive) (e : Z) :
  - B <= e ->
  e <= fexp prec emax (Z.pos (digits2_pos m) + e) ->
  nonneg (binary_round_aux prec emax false (Z.pos m) e loc_Exact) = true
  /\ rounds_to B (Z.pos m * 2 ^ (e + B))
       (valB B (binary_round_aux prec emax false (Z.pos m) e loc_Exact)).
Proof.
  intros He Hn.
  rewrite binary_round_aux_finish. unfold shr_fexp.
  cbn [Zdigits2 shr_record_of_loc].
  rewrite fexp_eq in *.
  set (d := Z.pos (digits2_pos m) + e) in *.
  set (fe := Z.max (d - 53) (-1074)) in *.
  set (X := Z.pos m * 2 ^ (e + B)).
  assert (HU0 : 0 < 2 ^ (e + B)) by (apply Z.pow_pos_nonneg; lia).
  assert (HU : 0 < 2 ^ (fe + B)) by (apply Z.pow_pos_nonneg; lia).
  pose proof (digits2_pos_bounds m) as [Hlo Hhi].
  assert (HX : 2 ^ (d - 1 + B) <= X < 2 ^ (d + B)).
  { unfold X, d.
    replace (Z.pos (digits2_pos m) + e - 1 + B)
      with ((Z.pos (digits2_pos m) - 1) + (e + B)) by lia.
    replace (Z.pos (digits2_pos m) + e + B)
      with (Z.pos (digits2_pos m) + (e + B)) by lia.
    rewrite (Z.pow_add_r 2 (Z.pos (digits2_pos m) - 1) (e + B)) by lia.
    rewrite (Z.pow_add_r 2 (Z.pos (digits2_pos m)) (e + B)) by lia.
    split.
    - apply Z.mul_le_mono_nonneg_r; lia.
    - apply Z.mul_lt_mono_pos_r; lia. }
  assert (Hstart : located (2 ^ (e + B)) X
                     {| shr_m := Z.pos m; shr_r := false; shr_s := false |}).
  { unfold located, inbetween. cbn. unfold X. lia. }
  destruct (shr_located _ _ _ e (fe - e) ltac:(lia) HU0 Hstart) as [He' Hloc].
  destruct (shr {| shr_m := Z.pos m; shr_r := false; shr_s := false |} e (fe - e))
    as [mrs e'].
  cbn [fst snd] in He', Hloc. subst e'.
  replace (e + (fe - e)) with fe by lia.
  replace (2 ^ (fe - e) * 2 ^ (e + B)) with (2 ^ (fe + B)) in Hloc
    by (rewrite <- Z.pow_add_r by lia; f_equal; lia).
  unfold located in Hloc.
  set (m' := shr_m mrs) in *. set (l := loc_of_shr_record mrs) in *.
  pose proof (inbetween_bounds _ _ _ _ HU Hloc) as [Hm' Hb].
  pose proof (round_nearest_even_bounds m' l) as Hr.
  assert (Htop : 2 ^ (d + B) <= 9007199254740992 * 2 ^ (fe + B)).
  { change 9007199254740992 with (2 ^ 53).
    rewrite <- Z.pow_add_r by lia. apply Z.pow_le_mono_r; lia. }
  assert (Hm53 : m' < 9007199254740992) by nia.
  destruct (finish_val (round_nearest_even m' l) fe) as [Hnn Hval].
  - lia.
  - lia.
  - intros Hbig.
    assert (Hfe : fe = d - 53) by lia.
    assert (Hbot : 4503599627370496 * 2 ^ (fe + B) = 2 ^ (d - 1 + B)).
    { change 4503599627370496 with (2 ^ 52).
      rewrite <- Z.pow_add_r by lia. f_equal. lia. }
    assert (4503599627370496 < m' + 1) by nia. lia.
  - split; [exact Hnn|].
    exists d, m', l.
    split; [unfold d; lia|]. split; [exact HX|]. split; [exact Hloc|exact Hval].
Qed.

(** Scaled values are not negative. *)
Lemma valB_nonneg (x : spec_float) : 0 <= valB B x.
Proof.
  destruct x as [s | s | | s m e]; cbn [valB];
    [ lia
    | apply Z.pow_nonneg; lia
    | lia
    | apply Z.mul_nonneg_nonneg; [lia | apply Z.pow_nonneg; lia] ].
Qed.

(** No rounding exceeds the value of [+infinity]. *)
Lemma rounds_to_le_inf (X v : Z) : rounds_to B X v -> v <= 2 ^ (1024 + B).
Proof. intros (d & m & l & _ & _ & _ & ->). apply Z.le_min_r. Qed.

(** What [valid_binary] says of a finite number: the exponent range, at
    most 53 digits, and exactly 53 for a normal number. *)
Lemma valid_finite (s : bool) (m : positive) (e : Z) :
  valid_binary (S754_finite s m e) = true ->
  -1074 <= e <= 971
  /\ Z.pos (digits2_pos m) <= 53
  /\ (-1074 < e -> Z.pos (digits2_pos m) = 53).
Proof.
  cbn [SpecFloat.valid_binary]. unfold bounded, canonical_mantissa.
  rewrite fexp_eq. change (emax - prec) with 971.
  intros H. apply andb_true_iff in H. destruct H as [H1 H2].
  apply Z.eqb_eq in H1. apply Z.leb_le in H2. lia.
Qed.

(** A valid finite number is positive and below [+infinity]. *)
Lemma valid_finite_below_inf (s : bool) (m : positive) (e : Z) :
  valid_binary (S754_finite s m e) = true ->
  0 < valB B (S754_finite s m e) < 2 ^ (1024 + B).
Proof.
  intros H. apply valid_finite in H. destruct H as (He & Hd & _).
  cbn [valB].
  assert (HU : 0 < 2 ^ (e + B)) by (apply Z.pow_pos_nonneg; lia).
  pose proof (digits2_pos_bounds m) as [_ Hhi].
  split; [apply Z.mul_pos_pos; lia|].
  replace (1024 + B) with ((1024 - e) + (e + B)) by lia.
  rewrite (Z.pow_add_r 2 (1024 - e) (e + B)) by lia.
  apply Z.mul_lt_mono_pos_r; [assumption|].
  apply Z.lt_le_trans with (2 ^ Z.pos (digits2_pos m)); [assumption|].
  apply Z.pow_le_mono_r; lia.
Qed.

(** A larger number has at least as many digits. *)
Lemma digits2_pos_mono (a b : positive) :
  Z.pos a <= Z.pos b -> Z.pos (digits2_pos a) <= Z.pos (digits2_pos b).
Proof.
  intros H.
  pose proof (digits2_pos_bounds a) as [Ha _].
  pose proof (digits2_pos_bounds b) as [_ Hb].
  destruct (Z_le_gt_dec (Z.pos (digits2_pos a)) (Z.pos (digits2_pos b)))
    as [|Hgt]; [assumption|exfalso].
  assert (2 ^ Z.pos (digits2_pos b) <= 2 ^ (Z.pos (digits2_pos a) - 1))
    by (apply Z.pow_le_mono_r; lia).
  lia.
Qed.

(** Multiplying a positive finite number by a positive normal constant
    rounds the exact product. *)
Lemma SFmul_finite_rounds (mx mc : positive) (ex ec : Z) :
  valid_binary (S754_finite false mx ex) = true ->
  Z.pos (digits2_pos mc) = 53 ->
  1074 - B <= ec ->
  nonneg (SF64mul (S754_finite false mx ex) (S754_finite false mc ec)) = true
  /\ rounds_to B (Z.pos mx * Z.pos mc * 2 ^ (ex + ec + B))
       (valB B (SF64mul (S754_finite false mx ex) (S754_finite false mc ec))).
Proof.
  intros Hv Hc Hec. apply valid_finite in Hv. destruct Hv as (Hex & _ & _).
  unfold SF64mul. cbn [SFmul xorb].
  rewrite <- Pos2Z.inj_mul.
  apply binary_round_aux_rounds; [lia|].
  rewrite fexp_eq.
  assert (Z.pos (digits2_pos mc) <= Z.pos (digits2_pos (mx * mc)))
    by (apply digits2_pos_mono; nia).
  lia.
Qed.

(** The sign bit of a non-negative number. *)
Lemma nonneg_sign (s : bool) : negb s = true -> s = false.
Proof. now destruct s. Qed.

(** Case analysis on a number [x] with [H : nonneg x = true]: a zero,
    [+infinity] or a positive finite number. *)
Ltac nonneg_cases x H s m e :=
  destruct x as [s | s | | s m e]; cbn [nonneg] in H;
  [ | apply nonneg_sign in H; subst s
    | discriminate H
    | apply nonneg_sign in H; subst s ].

(** The product of a non-negative number with a positive normal constant
    is non-negative, and never a NaN. *)
Lemma SFmul_const_nonneg (a : spec_float) (mc : positive) (ec : Z) :
  valid_binary a = true -> nonneg a = true ->
  Z.pos (digits2_pos mc) = 53 -> 1074 - B <= ec ->
  nonneg (SF64mul a (S754_finite false mc ec)) = true.
Proof.
  intros Hv Hn Hc Hec.
  nonneg_cases a Hn s m e; try reflexivity.
  now apply SFmul_finite_rounds.
Qed.

(** Multiplication by a positive normal constant is monotone on the
    non-negative numbers. *)
Lemma SFmul_const_mono (a b : spec_float) (mc : positive) (ec : Z) :
  valid_binary a = true -> valid_binary b = true ->
  nonneg a = true -> nonneg b = true ->
  Z.pos (digits2_pos mc) = 53 -> 1074 - B <= ec <= 0 ->
  valB B a <= valB B b ->
  valB B (SF64mul a (S754_finite false mc ec))
  <= valB B (SF64mul b (S754_finite false mc ec)).
Proof.
  intros Hva Hvb Hna Hnb Hc Hec Hle.
  nonneg_cases a Hna sa ma ea.
  - (* zero *) cbn [SF64mul SFmul valB]. apply valB_nonneg.
  - (* infinity *)
    nonneg_cases b Hnb sb mb eb.
    + cbn [valB] in Hle.
      assert (0 < 2 ^ (1024 + B)) by (apply Z.pow_pos_nonneg; lia). lia.
    + reflexivity.
    + pose proof (valid_finite_below_inf _ _ _ Hvb) as Hb.
      cbn [valB] in Hle, Hb. lia.
  - (* finite *)
    destruct (SFmul_finite_rounds ma mc ea ec Hva Hc ltac:(lia)) as [_ Ra].
    nonneg_cases b Hnb sb mb eb.
    + pose proof (valid_finite_below_inf _ _ _ Hva) as Ha.
      cbn [valB] in Hle, Ha. lia.
    + cbn [SF64mul SFmul xorb valB].
      apply (rounds_to_le_inf _ _ Ra).
    + destruct (SFmul_finite_rounds mb mc eb ec Hvb Hc ltac:(lia)) as [_ Rb].
      apply (rounds_to_mono _ _ _ _ Ra Rb).
      apply valid_finite in Hva, Hvb.
      cbn [valB] in Hle.
      assert (Ea : 2 ^ (ea + B) = 2 ^ (ea + ec + B) * 2 ^ (- ec)).
      { rewrite <- Z.pow_add_r by lia. f_equal. lia. }
      assert (Eb : 2 ^ (eb + B) = 2 ^ (eb + ec + B) * 2 ^ (- ec)).
      { rewrite <- Z.pow_add_r by lia. f_equal. lia. }
      rewrite Ea, Eb in Hle.
      assert (HP : 0 < 2 ^ (- ec)) by (apply Z.pow_pos_nonneg; lia).
      rewrite !Z.mul_assoc in Hle.
      apply Z.mul_le_mono_pos_r in Hle; [|assumption].
      replace (Z.pos ma * Z.pos mc * 2 ^ (ea + ec + B))
        with (Z.pos mc * (Z.pos ma * 2 ^ (ea + ec + B))) by ring.
      replace (Z.pos mb * Z.pos mc * 2 ^ (eb + ec + B))
        with (Z.pos mc * (Z.pos mb * 2 ^ (eb + ec + B))) by ring.
      apply Z.mul_le_mono_nonneg_l; [lia|assumption].
Qed.

(** For a fixed non-negative number, a larger positive constant gives a
    larger product. *)
Lemma SFmul_consts_mono (x : spec_float) (m1 m2 : positive) (e1 e2 : Z) :
  valid_binary x = true -> nonneg x = true ->
  Z.pos (digits2_pos m1) = 53 -> Z.pos (digits2_pos m2) = 53 ->
  1074 - B <= e1 -> e1 <= e2 ->
  Z.pos m1 <= Z.pos m2 * 2 ^ (e2 - e1) ->
  valB B (SF64mul x (S754_finite false m1 e1))
  <= valB B (SF64mul x (S754_finite false m2 e2)).
Proof.
  intros Hv Hn H1 H2 He1 He Hm.
  nonneg_cases x Hn s m e.
  - apply Z.le_refl.
  - apply Z.le_refl.
  - destruct (SFmul_finite_rounds m m1 e e1 Hv H1 ltac:(lia)) as [_ R1].
    destruct (SFmul_finite_rounds m m2 e e2 Hv H2 ltac:(lia)) as [_ R2].
    apply (rounds_to_mono _ _ _ _ R1 R2).
    apply valid_finite in Hv.
    replace (2 ^ (e + e2 + B)) with (2 ^ (e2 - e1) * 2 ^ (e + e1 + B))
      by (rewrite <- Z.pow_add_r by lia; f_equal; lia).
    assert (HU : 0 < 2 ^ (e + e1 + B)) by (apply Z.pow_pos_nonneg; lia).
    replace (Z.pos m * Z.pos m1 * 2 ^ (e + e1 + B))
      with (Z.pos m * 2 ^ (e + e1 + B) * Z.pos m1) by ring.
    replace (Z.pos m * Z.pos m2 * (2 ^ (e2 - e1) * 2 ^ (e + e1 + B)))
      with (Z.pos m * 2 ^ (e + e1 + B) * (Z.pos m2 * 2 ^ (e2 - e1))) by ring.
    apply Z.mul_le_mono_nonneg_l; [|assumption].
    apply Z.mul_nonneg_nonneg; lia.
Qed.

(** On valid non-negative numbers the scaled value decides [<=]. *)
Lemma SFleb_of_valB (a b : spec_float) :
  valid_binary a = true -> valid_binary b = true ->
  nonneg a = true -> nonneg b = true ->
  valB B a <= valB B b -> SFleb a b = true.
Proof.
  intros Hva Hvb Hna Hnb Hle.
  assert (Hinf : 0 < 2 ^ (1024 + B)) by (apply Z.pow_pos_nonneg; lia).
  nonneg_cases a Hna sa ma ea; nonneg_cases b Hnb sb mb eb; try reflexivity.
  - cbn [valB] in Hle. lia.
  - pose proof (valid_finite_below_inf _ _ _ Hvb) as Hb.
    cbn [valB] in Hle, Hb. lia.
  - pose proof (valid_finite_below_inf _ _ _ Hva) as Ha.
    cbn [valB] in Hle, Ha. lia.
  - unfold SFleb. cbn [SFcompare].
    apply valid_finite in Hva, Hvb.
    destruct Hva as (Hea & Hda & Hna). destruct Hvb as (Heb & Hdb & Hnb).
    cbn [valB] in Hle.
    pose proof (digits2_pos_bounds ma) as [Hma _].
    pose proof (digits2_pos_bounds mb) as [_ Hmb].
    destruct (Z.compare_spec ea eb) as [E | L | G]; [| reflexivity |].
    + subst eb.
      assert (HU : 0 < 2 ^ (ea + B)) by (apply Z.pow_pos_nonneg; lia).
      apply Z.mul_le_mono_pos_r in Hle; [|assumption].
      change (Pos.compare_cont Eq ma mb) with (Z.pos ma ?= Z.pos mb).
      destruct (Z.compare_spec (Z.pos ma) (Z.pos mb)); [reflexivity..|lia].
    + exfalso.
      rewrite (Hna ltac:(lia)) in Hma. change (2 ^ (53 - 1)) with 4503599627370496 in Hma.
      assert (Hmb' : Z.pos mb < 9007199254740992).
      { apply Z.lt_le_trans with (2 ^ Z.pos (digits2_pos mb)); [assumption|].
        change 9007199254740992 with (2 ^ 53). apply Z.pow_le_mono_r; lia. }
      assert (Ea : 2 ^ (ea + B) = 2 ^ (ea - eb) * 2 ^ (eb + B)).
      { rewrite <- Z.pow_add_r by lia. f_equal. lia. }
      assert (HU : 0 < 2 ^ (eb + B)) by (apply Z.pow_pos_nonneg; lia).
      assert (H2 : 2 ^ 1 <= 2 ^ (ea - eb)) by (apply Z.pow_le_mono_r; lia).
      change (2 ^ 1) with 2 in H2.
      rewrite Ea, Z.mul_assoc in Hle.
      apply Z.mul_le_mono_pos_r in Hle; [|assumption].
      nia.
Qed.

(** [0 <= x], as the comparison of binary64 decides it. *)
Lemma nonneg_iff_leb (x : spec_float) :
  SFleb (S754_zero false) x = true <-> nonneg x = true.
Proof. destruct x as [s | [|] | | [|] m e]; cbn; intuition congruence. Qed.

End ScaledFacts.

(** *** The same facts on primitive floats *)

(** [0 <= x] on primitive floats. *)
Lemma fnonneg_iff (x : float) : (0 <=? x)%float = true <-> fnonneg x = true.
Proof.
  unfold fnonneg. rewrite leb_spec.
  change (Prim2SF 0%float) with (S754_zero false).
  apply nonneg_iff_leb.
Qed.

(** The scaled value decides [<=] on non-negative primitive floats. *)
Lemma leb_of_fval (a b : float) :
  fnonneg a = true -> fnonneg b = true -> fval a <= fval b ->
  (a <=? b)%float = true.
Proof.
  intros Ha Hb Hle. rewrite leb_spec.
  apply (SFleb_of_valB 1200); auto using Prim2SF_valid. lia.
Qed.

Section PositiveNormalConstant.

(** A positive normal constant [c], as [Prim2SF] shows it. *)
Variables (c : float) (m : positive) (e : Z).
Hypothesis Hc : Prim2SF c = S754_finite false m e.
Hypothesis Hm : Z.pos (digits2_pos m) = 53.
Hypothesis He : -126 <= e <= 0.

(** [a * c] is non-negative when [a] is. *)
Lemma mul_const_fnonneg (a : float) :
  fnonneg a = true -> fnonneg (a * c)%float = true.
Proof.
  unfold fnonneg. intros Ha. rewrite mul_spec, Hc.
  apply (SFmul_const_nonneg 1200); auto using Prim2SF_valid; lia.
Qed.

(** [a * c <= b * c] when [a <= b], roundings included. *)
Lemma mul_const_fval_mono (a b : float) :
  fnonneg a = true -> fnonneg b = true -> fval a <= fval b ->
  fval (a * c)%float <= fval (b * c)%float.
Proof.
  unfold fnonneg, fval. intros Ha Hb Hle. rewrite !mul_spec, Hc.
  apply (SFmul_const_mono 1200); auto using Prim2SF_valid; lia.
Qed.

End PositiveNormalConstant.

(** [x * c1 <= x * c2] for two positive normal constants [c1 <= c2]. *)
Lemma mul_consts_fval_mono (x c1 c2 : float) (m1 m2 : positive) (e1 e2 : Z) :
  Prim2SF c1 = S754_finite false m1 e1 ->
  Prim2SF c2 = S754_finite false m2 e2 ->
  Z.pos (digits2_pos m1) = 53 -> Z.pos (digits2_pos m2) = 53 ->
  -126 <= e1 -> e1 <= e2 ->
  Z.pos m1 <= Z.pos m2 * 2 ^ (e2 - e1) ->
  fnonneg x = true ->
  fval (x * c1)%float <= fval (x * c2)%float.
Proof.
  unfold fnonneg, fval. intros H1 H2 D1 D2 E1 E12 Hm Hx.
  rewrite !mul_spec, H1, H2.
  apply (SFmul_consts_mono 1200); auto using Prim2SF_valid; lia.
Qed.

End FloatOrderFacts.

Module PricingFacts.
Import Pricing FloatOrder FloatOrderFacts.
Local Open Scope float_scope.

Lemma tier_of_user_type_of (t : Tier) : tier_of_user_type (user_type_of t) = t.
Proof. destruct t; reflexivity. Qed.

(** C1: for every subtotal and every tier, the total the code returns is
    [subtotal * (1 - discountRate tier) * (1 + TAX_RATE)], with rates
    Regular = 0.10, VIP = 0.20, None = 0.0 and tax 0.0825; this holds both
    for the integer a caller passes for a tier and for the tier the code
    reads from any integer. *)
Theorem total_is_discounted_then_taxed :
  (forall (s : float) (t : Tier),
      total_with_tax_and_discount s (user_type_of t)
      = (s * (1 - discountRate t)) * (1 + TAX_RATE))
  /\ (forall (s : float) (u : Z),
      total_with_tax_and_discount s u
      = (s * (1 - discountRate (tier_of_user_type u))) * (1 + TAX_RATE)).
Proof.
  split.
  - intros s t. destruct t; reflexivity.
  - intros s u. unfold total_with_tax_and_discount, tier_of_user_type.
    destruct (u =? 1)%Z; [reflexivity|].
    destruct (u =? 2)%Z; reflexivity.
Qed.

(** C3: a user type that names no tier is not rejected; the [else] branch
    prices it with the zero discount, and a total is returned. *)
Theorem unknown_user_type_gets_zero_discount :
  total_with_tax_and_discount 100 3 = 108.25
  /\ (forall s : float,
        total_with_tax_and_discount s 3 = (s * (1 - 0.0)) * (1 + TAX))
  /\ (forall s : float,
        total_with_tax_and_discount s 3
        = total_with_tax_and_discount s (user_type_of NoTier)).
Proof. repeat split; reflexivity. Qed.


(** The factors of the formula, as binary64 numbers. *)
Lemma factor_vip :
  Prim2SF (1 - DISCOUNT_VIP) = S754_finite false 7205759403792794 (-53).
Proof. reflexivity. Qed.

Lemma factor_regular :
  Prim2SF (1 - DISCOUNT_REGULAR) = S754_finite false 8106479329266893 (-53).
Proof. reflexivity. Qed.

Lemma factor_none :
  Prim2SF (1 - 0.0) = S754_finite false 4503599627370496 (-52).
Proof. reflexivity. Qed.

Lemma factor_tax :
  Prim2SF (1 + TAX) = S754_finite false 4875146596628562 (-52).
Proof. reflexivity. Qed.

Lemma total_factors (s : float) (t : Tier) :
  total_with_tax_and_discount s (user_type_of t) = (s * factor t) * (1 + TAX).
Proof. destruct t; reflexivity. Qed.

Lemma total_fnonneg (s : float) (t : Tier) :
  fnonneg s = true ->
  fnonneg (total_with_tax_and_discount s (user_type_of t)) = true.
Proof.
  intros Hs. rewrite total_factors.
  apply (mul_const_fnonneg _ _ _ factor_tax); [reflexivity | lia |].
  destruct t; cbn [factor].
  - apply (mul_const_fnonneg _ _ _ factor_regular); [reflexivity | lia | exact Hs].
  - apply (mul_const_fnonneg _ _ _ factor_vip); [reflexivity | lia | exact Hs].
  - apply (mul_const_fnonneg _ _ _ factor_none); [reflexivity | lia | exact Hs].
Qed.

(** Every integer is priced as the tier the code reads from it. *)
Lemma total_by_tier (s : float) (u : Z) :
  total_with_tax_and_discount s u
  = total_with_tax_and_discount s (user_type_of (tier_of_user_type u)).
Proof.
  unfold total_with_tax_and_discount, tier_of_user_type.
  destruct (u =? 1)%Z; [reflexivity|].
  destruct (u =? 2)%Z; reflexivity.
Qed.

(** C9: for every non-negative subtotal [s] (a binary64 number with
    [0 <= s], so not a NaN) and every tier [t], [0 <= total s t], also
    for the tier read from any integer, and the totals are ordered
    VIP <= Regular <= None; [<=] is the comparison of binary64 numbers,
    and the totals carry the rounding of each multiplication. *)
Theorem total_nonneg_and_ordered (s : float) :
  (0 <=? s) = true ->
  (forall t : Tier,
      (0 <=? total_with_tax_and_discount s (user_type_of t)) = true)
  /\ (forall u : Z, (0 <=? total_with_tax_and_discount s u) = true)
  /\ (total_with_tax_and_discount s (user_type_of VIP)
      <=? total_with_tax_and_discount s (user_type_of Regular)) = true
  /\ (total_with_tax_and_discount s (user_type_of Regular)
      <=? total_with_tax_and_discount s (user_type_of NoTier)) = true.
Proof.
  intros Hs. apply fnonneg_iff in Hs.
  split; [|split; [|split]].
  - intros t. apply fnonneg_iff. now apply total_fnonneg.
  - intros u. rewrite total_by_tier. apply fnonneg_iff. now apply total_fnonneg.
  - apply leb_of_fval; try (now apply total_fnonneg).
    rewrite !total_factors. cbn [factor].
    apply (mul_const_fval_mono _ _ _ factor_tax); [reflexivity | lia | | |].
    + apply (mul_const_fnonneg _ _ _ factor_vip); [reflexivity | lia | exact Hs].
    + apply (mul_const_fnonneg _ _ _ factor_regular); [reflexivity | lia | exact Hs].
    + apply (mul_consts_fval_mono _ _ _ _ _ _ _ factor_vip factor_regular);
        [reflexivity | reflexivity | lia | lia | vm_compute; discriminate
        | exact Hs].
  - apply leb_of_fval; try (now apply total_fnonneg).
    rewrite !total_factors. cbn [factor].
    apply (mul_const_fval_mono _ _ _ factor_tax); [reflexivity | lia | | |].
    + apply (mul_const_fnonneg _ _ _ factor_regular); [reflexivity | lia | exact Hs].
    + apply (mul_const_fnonneg _ _ _ factor_none); [reflexivity | lia | exact Hs].
    + apply (mul_consts_fval_mono _ _ _ _ _ _ _ factor_regular factor_none);
        [reflexivity | reflexivity | lia | lia | vm_compute; discriminate
        | exact Hs].
Qed.

Lemma total_nonneg_and_ordered_witness :
  (0 <=? 100) = true
  /\ (forall t : Tier,
         (0 <=? total_with_tax_and_discount 100 (user_type_of t)) = true)
  /\ (forall u : Z, (0 <=? total_with_tax_and_discount 100 u) = true)
  /\ (total_with_tax_and_discount 100 (user_type_of VIP)
      <=? total_with_tax_and_discount 100 (user_type_of Regular)) = true
  /\ (total_with_tax_and_discount 100 (user_type_of Regular)
      <=? total_with_tax_and_discount 100 (user_type_of NoTier)) = true.
Proof.
  split; [reflexivity|].
  apply (total_nonneg_and_ordered 100). reflexivity.
Defined.

End PricingFacts.

Module CounterFacts.
Import Counter.

(** A step of the thread at position [length pre]. *)
Lemma step_at_app (pre post : list thread) (t : thread) (c : Z) :
  step_at (List.length pre) c (pre ++ t :: post)
  = match step_thread c t with
    | Some (c', t') => Some (c', pre ++ t' :: post)
    | None => None
    end.
Proof.
  induction pre as [|p pre IH]; cbn [List.length app step_at].
  - destruct (step_thread c t) as [[c' t']|]; reflexivity.
  - rewrite IH. destruct (step_thread c t) as [[c' t']|]; reflexivity.
Qed.

Lemma run_app (s1 s2 : list nat) (st : world) :
  run (s1 ++ s2) st
  = match run s1 st with Some st' => run s2 st' | None => None end.
Proof.
  revert st. induction s1 as [|i s1 IH]; intros st; cbn [app run]; [reflexivity|].
  destruct (step i st); [apply IH | reflexivity].
Qed.

(** A thread that runs alone adds its [n] increments to the counter. *)
Lemma run_alone (pre post : list thread) (n : nat) (c : Z) :
  run (repeat (List.length pre) (2 * n))
      (mkWorld c (pre ++ mkThread (increments n) None :: post))
  = Some (mkWorld (c + Z.of_nat n) (pre ++ mkThread [] None :: post)).
Proof.
  revert c. induction n as [|n IH]; intros c.
  - cbn [Nat.mul repeat run increments]. now rewrite Z.add_0_r.
  - replace (2 * S n)%nat with (S (S (2 * n))) by lia.
    cbn [repeat run increments]. unfold step at 1. cbn [SHARED_COUNTER threads].
    rewrite step_at_app. cbn [step_thread todo loaded].
    unfold step at 1. cbn [SHARED_COUNTER threads].
    rewrite step_at_app. cbn [step_thread todo loaded].
    rewrite IH. do 2 f_equal. lia.
Qed.

Lemma run_serial (ns : list Z) (pre : list thread) (c : Z) :
  run (serial_from (List.length pre) ns) (mkWorld c (pre ++ map spawn ns))
  = Some (mkWorld (c + requested ns)
            (pre ++ map (fun _ => mkThread [] None) ns)).
Proof.
  revert pre c. induction ns as [|n ns IH]; intros pre c.
  - cbn. now rewrite Z.add_0_r.
  - cbn [serial_from map requested fold_right]. rewrite run_app.
    unfold spawn at 1, increment_shared_counter. rewrite run_alone.
    replace (pre ++ mkThread [] None :: map spawn ns)
      with ((pre ++ [mkThread [] None]) ++ map spawn ns)
      by (now rewrite <- app_assoc).
    replace (S (List.length pre)) with (List.length (pre ++ [mkThread [] None]))
      by (rewrite length_app; cbn; lia).
    rewrite IH. rewrite <- app_assoc. cbn [app].
    do 2 f_equal. fold (requested ns). lia.
Qed.

Lemma all_finished (ns : list Z) :
  forallb finished (map (fun _ : Z => mkThread [] None) ns) = true.
Proof. induction ns as [|n ns IH]; [reflexivity | exact IH]. Qed.

(** X10: When the threads do not interleave, nothing is lost: the final value
    is the sum of the increments requested. *)
Lemma serial_sum (ns : list Z) :
  final_value ns (serial_from 0 ns) = Some (requested ns).
Proof.
  unfold final_value, start.
  pose proof (run_serial ns [] 0) as H. cbn [List.length app] in H.
  rewrite H. unfold joined. cbn [threads SHARED_COUNTER].
  now rewrite all_finished.
Qed.

(** Two threads in lockstep: every round both read the same value and both
    write its successor. *)
Lemma run_lockstep_two (k : nat) (c : Z) :
  run (lockstep 2 k)
      (mkWorld c [mkThread (increments k) None; mkThread (increments k) None])
  = Some (mkWorld (c + Z.of_nat k) [mkThread [] None; mkThread [] None]).
Proof.
  revert c. induction k as [|k IH]; intros c.
  - cbn. now rewrite Z.add_0_r.
  - cbn [lockstep seq app run increments]. unfold step. cbn.
    rewrite IH. do 2 f_equal. lia.
Qed.

(** C2: without a lock, increments are lost.  Two threads that increment
    [k] times each can end at [k], whatever [k] is, although [2 * k]
    increments were requested: with [k = 1] both read 0 and both write 1.
    The four threads of [main], 10000 increments each, can end at 10000
    instead of 40000. *)
Theorem increments_can_be_lost :
  (forall k : nat,
      final_value [Z.of_nat k; Z.of_nat k] (lockstep 2 k) = Some (Z.of_nat k)
      /\ requested [Z.of_nat k; Z.of_nat k] = 2 * Z.of_nat k)
  /\ final_value [1; 1] [0; 1; 0; 1]%nat = Some 1
  /\ final_value [10000; 10000; 10000; 10000] (lockstep 4 (Z.to_nat 10000))
     = Some 10000
  /\ requested [10000; 10000; 10000; 10000] = 40000.
Proof.
  split; [|repeat split; vm_compute; reflexivity].
  intros k. split.
  - unfold final_value, start. cbn [map]. unfold spawn, increment_shared_counter.
    rewrite Nat2Z.id, run_lockstep_two. reflexivity.
  - unfold requested. cbn [fold_right]. lia.
Qed.

End CounterFacts.

Module RegistryFacts.
Import Py Registry.

(** A lookup that matches nobody changes nothing and answers [False]. *)
Lemma update_user_age_absent (us : users) (username : string) (age : pyval) :
  forallb (fun user => negb (has_username user username)) us = true ->
  update_user_age us username age = (us, false).
Proof.
  induction us as [|user rest IH]; simpl; intro H; [reflexivity|].
  apply andb_true_iff in H. destruct H as [Hu Hrest].
  apply negb_true_iff in Hu. rewrite Hu, (IH Hrest). reflexivity.
Qed.

(** The registry keeps its size whatever the arguments. *)
Lemma update_user_age_length (us : users) (username : string) (age : pyval) :
  List.length (fst (update_user_age us username age)) = List.length us.
Proof.
  induction us as [|user rest IH]; simpl; [reflexivity|].
  destruct (has_username user username); simpl; [reflexivity|].
  destruct (update_user_age rest username age) as [rest' found].
  simpl in *. now rewrite IH.
Qed.



(** C7: an age outside 0..150 is not rejected: the call stores it and
    answers [True]. *)
Theorem out_of_range_age_is_stored :
  update_user_age [[("username", PStr "bob")]] "bob" (PInt (-5))
  = ([[("username", PStr "bob"); ("age", PInt (-5))]], true)
  /\ update_user_age [[("username", PStr "bob"); ("age", PInt 30)]] "bob" (PInt 151)
     = ([[("username", PStr "bob"); ("age", PInt 151)]], true)
  /\ update_user_age [[("username", PStr "bob")]] "nobody" (PInt 30)
     = ([[("username", PStr "bob")]], false).
Proof. repeat split. Qed.

(** C8: [None] and the empty dict are dropped without an error, and a
    record whose username is the empty string is registered. *)
Theorem invalid_user_is_not_rejected :
  (forall us : users, add_user us None = us)
  /\ (forall us : users, add_user us (Some []) = us)
  /\ (forall us : users,
        add_user us (Some [("username", PStr "")])
        = us ++ [[("username", PStr "")]]).
Proof. repeat split. Qed.

End RegistryFacts.

Module OrderStoreFacts.
Import Py OrderStore.

Lemma lookup_store_file (fs : files) (path : string) (db : database) :
  lookup_file (store_file fs path db) path = Some db.
Proof.
  induction fs as [|[p db'] rest IH]; simpl.
  - now rewrite String.eqb_refl.
  - destruct (String.eqb p path) eqn:E; simpl; rewrite E; [reflexivity|exact IH].
Qed.

Lemma same_name_refl (name : string) : same_name name name = true.
Proof. apply String.eqb_refl. Qed.

(** On a database file, the second [init_db] always raises. *)
Lemma init_db_twice_raises (db_path : string) (fs fs1 : files) :
  private db_path = false ->
  init_db db_path fs = Returned fs1 ->
  init_db db_path fs1 = Raised OperationalError.
Proof.
  unfold init_db, connect, commit_close. intros Hfile. rewrite Hfile.
  set (conn := match lookup_file fs db_path with Some db => db | None => [] end).
  unfold create_table at 1.
  destruct (existsb (same_name "orders") conn); cbn [bind]; intros H;
    [discriminate H|].
  injection H as <-. rewrite lookup_store_file.
  unfold create_table. cbn [existsb]. rewrite same_name_refl. reflexivity.
Qed.

(** With the default [":memory:"], and with the empty name, every call
    works on a database of its own, which is gone when the call returns. *)
Lemma init_db_memory (fs : files) : init_db ":memory:" fs = Returned fs.
Proof. reflexivity. Qed.

Lemma init_db_private (db_path : string) (fs : files) :
  private db_path = true -> init_db db_path fs = Returned fs.
Proof.
  intros H. unfold init_db, connect, commit_close. rewrite H. reflexivity.
Qed.

(** With [IF NOT EXISTS] the statement would be idempotent. *)
Lemma create_table_if_not_exists_idempotent (name : string) (db db1 : database) :
  create_table_if_not_exists name db = Returned db1 ->
  create_table_if_not_exists name db1 = Returned db1.
Proof.
  unfold create_table_if_not_exists.
  destruct (existsb (same_name name) db) eqn:E; intros H; injection H as <-.
  - now rewrite E.
  - simpl. now rewrite same_name_refl.
Qed.

(** C6: on the same database file the first [init_db] creates the table
    and the second raises [sqlite3.OperationalError]. *)
Theorem init_db_second_call_raises :
  init_db "orders.db" [] = Returned [("orders.db", ["orders"])]
  /\ init_db "orders.db" [("orders.db", ["orders"])] = Raised OperationalError.
Proof. split; reflexivity. Qed.

(** The safe variant of the user lookup binds the name as a parameter. *)
Lemma find_user_safe_text_fixed (u1 u2 : string) :
  fst (Registry._find_user_safe u1) = fst (Registry._find_user_safe u2).
Proof. reflexivity. Qed.

(** C4: [create_order] passes [execute] one argument, a query text with the
    user name and the amount spliced in, and no parameters: whatever the
    database file and whatever SQLite does with the text, the third call is
    that [execute], and [commit] and [close] follow only when it returns.
    The text changes with the user and can carry SQL of the caller's
    choosing. *)
Theorem create_order_query_is_interpolated :
  forall (float_str : float -> string)
         (execute : string -> database -> outcome database)
         (db_path : string) (amount : float) (fs : files),
    fst (create_order float_str execute db_path "alice" amount fs)
    = [ Connect db_path;
        Cursor;
        Execute ("INSERT INTO orders(user, amount) VALUES ('alice', "
                   ++ float_str amount ++ ")")%string [] ]
      ++ match execute ("INSERT INTO orders(user, amount) VALUES ('alice', "
                          ++ float_str amount ++ ")")%string
                       (connect fs db_path) with
         | Returned _ => [Commit; Close]
         | Raised _ => []
         end
    /\ create_order_sql float_str "alice" amount
       <> create_order_sql float_str "bob" amount
    /\ create_order_sql float_str "x', 0); DROP TABLE orders; --" amount
       = ("INSERT INTO orders(user, amount) VALUES ('x', 0); DROP TABLE orders; --', "
            ++ float_str amount ++ ")")%string.
Proof.
  intros float_str execute db_path amount fs. split; [|split].
  - unfold create_order.
    change (create_order_sql float_str "alice" amount)
      with ("INSERT INTO orders(user, amount) VALUES ('alice', "
              ++ float_str amount ++ ")")%string.
    destruct (execute _ (connect fs db_path)); reflexivity.
  - unfold create_order_sql. simpl. discriminate.
  - reflexivity.
Qed.

(** When [execute] raises, [create_order] raises the same exception, has
    neither committed nor closed, and leaves the files as they were. *)
Lemma create_order_raises
      (float_str : float -> string)
      (execute : string -> database -> outcome database)
      (db_path username : string) (amount : float) (fs : files) (e : exn) :
  execute (create_order_sql float_str username amount) (connect fs db_path)
  = Raised e ->
  create_order float_str execute db_path username amount fs
  = ([ Connect db_path; Cursor;
       Execute (create_order_sql float_str username amount) [] ],
     Raised e).
Proof. intros H. unfold create_order. now rewrite H. Qed.

End OrderStoreFacts.

Module UserDataFacts.
Import Py UserData.





(** The two descriptions part only on a ["permissions"] value that is a
    non-empty dict: what the claim's wording selects is selected, and a
    record selected beyond it has such a dict. *)
Lemma described_sized_described (item : pydict) :
  described_sized item
  = described item
    || (described_sized item
        && match dict_get item "user" with
           | Some (PDict user) =>
               match dict_get user "permissions" with
               | Some (PDict _) => true
               | _ => false
               end
           | _ => false
           end).
Proof.
  unfold described, described_sized.
  destruct (dict_truthy item); [|reflexivity]. cbn [andb].
  destruct (dict_get item "user") as [[| | | | | |user]|]; try reflexivity.
  destruct (dict_truthy user); [|reflexivity]. cbn [andb].
  destruct (dict_get user "active") as [active|]; [|reflexivity].
  destruct (truthy active); [|reflexivity]. cbn [andb].
  destruct (dict_get user "permissions") as [[| | | |s|l|d]|];
    try reflexivity.
  - destruct s; reflexivity.
  - destruct l; reflexivity.
  - destruct d; reflexivity.
Qed.

(** On the sample the first and the last record are kept. *)
Example process_user_data_sample :
  process_user_data sample_records
  = Returned
      [ [("user", PDict [("active", PBool true);
                         ("permissions", PList [PStr "read"])])];
        [("user", PDict [("active", PInt 1); ("permissions", PStr "rw")])] ].
Proof. reflexivity. Qed.

End UserDataFacts.

(** ** More on process_user_data *)

Module UserDataLaws.
Import Py UserData.

(** What the loop does to an accumulator it is handed. *)
Lemma process_loop_acc (data result : list pydict) :
  process_loop data result
  = (r <- process_loop data [] ;; Returned (result ++ r)).
Proof.
  revert result. induction data as [|item rest IH]; intros result.
  - cbn. now rewrite app_nil_r.
  - cbn [process_loop]. destruct (selected item) as [keep|e]; cbn [bind];
      [|reflexivity].
    rewrite IH. rewrite (IH (if keep then [] ++ [item] else [])).
    destruct (process_loop rest []) as [r|e]; cbn [bind]; [|reflexivity].
    destruct keep; cbn [app]; [now rewrite <- app_assoc | reflexivity].
Qed.

(** One more item in front. *)
Lemma process_user_data_cons (item : pydict) (rest : list pydict) :
  process_user_data (item :: rest)
  = (keep <- selected item ;;
     r <- process_user_data rest ;;
     Returned (if keep then item :: r else r)).
Proof.
  unfold process_user_data. cbn [process_loop].
  destruct (selected item) as [keep|e]; cbn [bind]; [|reflexivity].
  rewrite process_loop_acc.
  destruct (process_loop rest []) as [r|e]; cbn [bind]; [|reflexivity].
  destruct keep; reflexivity.
Qed.

(** X2: The function works through a concatenation part by part: it raises
    what the first raising part raises, and otherwise returns the results
    of the parts, concatenated. *)
Theorem process_user_data_app (a b : list pydict) :
  process_user_data (a ++ b)
  = (ra <- process_user_data a ;;
     rb <- process_user_data b ;;
     Returned (ra ++ rb)).
Proof.
  induction a as [|item a IH].
  - cbn [app]. change (process_user_data []) with (@Returned (list pydict) []).
    cbn [bind]. destruct (process_user_data b); reflexivity.
  - cbn [app]. rewrite !process_user_data_cons, IH.
    destruct (selected item) as [keep|e]; cbn [bind]; [|reflexivity].
    destruct (process_user_data a) as [ra|e]; cbn [bind]; [|reflexivity].
    destruct (process_user_data b) as [rb|e]; cbn [bind]; [|reflexivity].
    destruct keep; reflexivity.
Qed.

(** The guards [in] before every subscript rule out [KeyError]: the only
    exception the loop body raises is [TypeError]. *)
Lemma selected_raises_TypeError (item : pydict) (e : exn) :
  selected item = Raised e -> e = TypeError.
Proof.
  unfold selected, dict_has.
  destruct (dict_truthy item); [|discriminate].
  cbn [py_getitem].
  destruct (dict_get item "user") as [user|]; [|discriminate].
  cbn [bind]. destruct (truthy user); [|discriminate].
  destruct user as [| b | z | f | s | l | d]; cbn [py_in bind];
    try (intros H; injection H as <-; reflexivity).
  - (* a string: the subscript after a successful substring test *)
    destruct (contains "active" s); cbn [py_getitem bind]; [|discriminate].
    intros H; injection H as <-; reflexivity.
  - (* a list *)
    destruct (existsb (fun x => eq_str x "active") l);
      cbn [py_getitem bind]; [|discriminate].
    intros H; injection H as <-; reflexivity.
  - (* a dict *)
    unfold dict_has. cbn [py_getitem].
    destruct (dict_get d "active") as [active|]; [|discriminate].
    cbn [bind]. destruct (truthy active); [|discriminate].
    destruct (dict_get d "permissions") as [permissions|]; [|discriminate].
    cbn [bind].
    destruct permissions; cbn [py_len bind]; try discriminate;
      intros H; injection H as <-; reflexivity.
Qed.

Lemma process_user_data_closed (data : list pydict) :
  process_user_data data
  = if existsb raises data then Raised TypeError
    else Returned (filter kept data).
Proof.
  induction data as [|item rest IH]; [reflexivity|].
  rewrite process_user_data_cons. cbn [existsb filter].
  unfold raises at 1, kept at 1.
  destruct (selected item) as [keep|e] eqn:E; cbn [bind orb].
  - rewrite IH. destruct (existsb raises rest); cbn [bind]; [reflexivity|].
    destruct keep; reflexivity.
  - now rewrite (selected_raises_TypeError item e E).
Qed.

(** X1: The whole function in closed form: when the loop body raises on some
    item the call raises [TypeError], and otherwise it returns the items
    the body keeps, in input order. *)
Theorem process_user_data_outcome (data : list pydict) :
  process_user_data data
  = if existsb raises data then Raised TypeError
    else Returned (filter kept data).
Proof. apply process_user_data_closed. Qed.

(** What a kept item looks like: its ["user"] is a dict whose ["active"]
    value is truthy and whose ["permissions"] value has a positive [len]. *)
Lemma kept_shape (item : pydict) :
  kept item = true ->
  exists (user : pydict) (active permissions : pyval) (n : nat),
    dict_get item "user" = Some (PDict user)
    /\ dict_get user "active" = Some active /\ truthy active = true
    /\ dict_get user "permissions" = Some permissions
    /\ py_len permissions = Returned n /\ (0 < n)%nat.
Proof.
  unfold kept, selected, dict_has.
  destruct (dict_truthy item); [|discriminate].
  cbn [py_getitem].
  destruct (dict_get item "user") as [user|]; [|discriminate].
  cbn [bind]. destruct (truthy user); [|discriminate].
  destruct user as [| b | z | f | s | l | d]; cbn [py_in bind];
    try discriminate.
  - destruct (contains "active" s); cbn [py_getitem bind]; discriminate.
  - destruct (existsb (fun x => eq_str x "active") l);
      cbn [py_getitem bind]; discriminate.
  - unfold dict_has. cbn [py_getitem].
    destruct (dict_get d "active") as [active|] eqn:Ea; [|discriminate].
    cbn [bind]. destruct (truthy active) eqn:Ta; [|discriminate].
    destruct (dict_get d "permissions") as [permissions|] eqn:Ep;
      [|discriminate].
    cbn [bind].
    destruct (py_len permissions) as [n|e] eqn:En; cbn [bind]; [|discriminate].
    intros H. apply Nat.ltb_lt in H.
    exists d, active, permissions, n. repeat split; assumption.
Qed.

(** X3: Every record the function returns has an active user with at least
    one permission, whatever else the input holds. *)
Theorem process_user_data_sound (data result : list pydict) :
  process_user_data data = Returned result ->
  Forall
    (fun item =>
       exists (user : pydict) (active permissions : pyval) (n : nat),
         dict_get item "user" = Some (PDict user)
         /\ dict_get user "active" = Some active /\ truthy active = true
         /\ dict_get user "permissions" = Some permissions
         /\ py_len permissions = Returned n /\ (0 < n)%nat)
    result.
Proof.
  rewrite process_user_data_closed.
  destruct (existsb raises data); [discriminate|].
  intros H. injection H as <-.
  apply Forall_forall. intros item Hin.
  apply filter_In in Hin. now apply kept_shape.
Qed.

Lemma process_user_data_sound_witness :
  process_user_data sample_records
  = Returned (filter kept sample_records)
  /\ Forall
       (fun item =>
          exists (user : pydict) (active permissions : pyval) (n : nat),
            dict_get item "user" = Some (PDict user)
            /\ dict_get user "active" = Some active /\ truthy active = true
            /\ dict_get user "permissions" = Some permissions
            /\ py_len permissions = Returned n /\ (0 < n)%nat)
       (filter kept sample_records).
Proof.
  split; [reflexivity|].
  apply (process_user_data_sound sample_records). reflexivity.
Defined.

Lemma kept_not_raises (item : pydict) : kept item = true -> raises item = false.
Proof. unfold kept, raises. destruct (selected item); [reflexivity|discriminate]. Qed.

Lemma filter_kept_quiet (data : list pydict) :
  existsb raises (filter kept data) = false.
Proof.
  induction data as [|item rest IH]; [reflexivity|].
  cbn [filter]. destruct (kept item) eqn:K; [|exact IH].
  cbn [existsb]. now rewrite (kept_not_raises item K), IH.
Qed.

Lemma filter_kept_twice (data : list pydict) :
  filter kept (filter kept data) = filter kept data.
Proof.
  induction data as [|item rest IH]; [reflexivity|].
  cbn [filter]. destruct (kept item) eqn:K; [|exact IH].
  cbn [filter]. now rewrite K, IH.
Qed.

(** X4: Filtering twice changes nothing: on its own result the function
    returns that result. *)
Theorem process_user_data_idempotent (data result : list pydict) :
  process_user_data data = Returned result ->
  process_user_data result = Returned result.
Proof.
  rewrite process_user_data_closed.
  destruct (existsb raises data); [discriminate|].
  intros H. injection H as <-.
  rewrite process_user_data_closed, filter_kept_quiet.
  now rewrite filter_kept_twice.
Qed.

Lemma process_user_data_idempotent_witness :
  process_user_data sample_records = Returned (filter kept sample_records)
  /\ process_user_data (filter kept sample_records)
     = Returned (filter kept sample_records).
Proof.
  split; [reflexivity|].
  apply (process_user_data_idempotent sample_records). reflexivity.
Defined.

End UserDataLaws.

(** ** More on UserManager *)

Module RegistryLaws.
Import Py Registry.

Lemma dict_set_set (d : pydict) (k : string) (v : pyval) :
  dict_set (dict_set d k v) k v = dict_set d k v.
Proof.
  induction d as [|[k' v'] rest IH]; cbn [dict_set].
  - now rewrite String.eqb_refl.
  - destruct (String.eqb k' k) eqn:E; cbn [dict_set]; rewrite E;
      [reflexivity | now rewrite IH].
Qed.

Lemma dict_get_set_other (d : pydict) (k k' : string) (v : pyval) :
  String.eqb k k' = false ->
  dict_get (dict_set d k v) k' = dict_get d k'.
Proof.
  intros Hk. induction d as [|[k0 v0] rest IH]; cbn [dict_set dict_get].
  - now rewrite Hk.
  - destruct (String.eqb k0 k) eqn:E; cbn [dict_get].
    + apply String.eqb_eq in E. subst k0. now rewrite Hk.
    + now rewrite IH.
Qed.

Lemma has_username_set_age (user : pydict) (username : string) (age : pyval) :
  has_username (dict_set user "age" age) username = has_username user username.
Proof.
  unfold has_username. now rewrite dict_get_set_other by reflexivity.
Qed.

(** X5: [update_user_age] answers [True] exactly when some record has the
    username, and when it answers [False] the registry is as before. *)
Theorem update_user_age_answer
        (us : users) (username : string) (age : pyval) :
  snd (update_user_age us username age)
  = existsb (fun user => has_username user username) us
  /\ (if snd (update_user_age us username age) then True
      else fst (update_user_age us username age) = us).
Proof.
  induction us as [|user rest IH]; cbn [update_user_age existsb].
  - split; reflexivity.
  - destruct (has_username user username); cbn [fst snd orb].
    + split; [reflexivity | exact I].
    + destruct (update_user_age rest username age) as [rest' found].
      cbn [fst snd] in *. destruct IH as [IH1 IH2]. split; [exact IH1|].
      destruct found; [exact I | now rewrite IH2].
Qed.


(** X7: Asking twice is the same as asking once. *)
Theorem update_user_age_idempotent
        (us : users) (username : string) (age : pyval) :
  update_user_age (fst (update_user_age us username age)) username age
  = update_user_age us username age.
Proof.
  induction us as [|user rest IH]; cbn [update_user_age]; [reflexivity|].
  destruct (has_username user username) eqn:E; cbn [fst update_user_age].
  - now rewrite has_username_set_age, E, dict_set_set.
  - destruct (update_user_age rest username age) as [rest' found] eqn:R.
    cbn [fst update_user_age] in *. now rewrite E, IH.
Qed.


Lemma fold_add_user (data : list (option pydict)) (us : users) :
  fold_left add_user data us = us ++ flat_map accepted data.
Proof.
  revert us. induction data as [|u data IH]; intros us; cbn [fold_left flat_map].
  - now rewrite app_nil_r.
  - rewrite IH. destruct u as [d|]; cbn [add_user accepted].
    + destruct (dict_truthy d); cbn [app];
        [now rewrite <- app_assoc | reflexivity].
    + reflexivity.
Qed.

(** X9: The loading loop of [main] registers exactly the records that are
    non-empty dicts, in the order of the file; [None] and [{}] leave no
    trace, so the count that [main] prints is the number of such records. *)
Theorem load_users_accepted (data : list (option pydict)) :
  load_users data = flat_map accepted data
  /\ List.length (load_users data)
     = List.length (filter (fun u => match accepted u with [] => false | _ => true end) data).
Proof.
  unfold load_users. rewrite fold_add_user. cbn [app]. split; [reflexivity|].
  induction data as [|u data IH]; [reflexivity|].
  cbn [flat_map filter]. rewrite length_app.
  destruct u as [d|]; cbn [accepted]; [|exact IH].
  destruct (dict_truthy d); cbn [List.length]; [now rewrite IH | exact IH].
Qed.

End RegistryLaws.

(** ** More on the shared counter *)

Module CounterLaws.
Import Counter.

Lemma writes_increments (k : nat) : writes (increments k) = Z.of_nat k.
Proof. induction k as [|k IH]; cbn [increments writes]; lia. Qed.

Lemma pending_app (a b : list thread) : pending (a ++ b) = pending a + pending b.
Proof.
  unfold pending. induction a as [|t a IH]; cbn [app fold_right]; lia.
Qed.

Lemma pending_cons (t : thread) (ts : list thread) :
  pending (t :: ts) = writes (todo t) + pending ts.
Proof. reflexivity. Qed.

Lemma pending_spawn (ns : list Z) : pending (map spawn ns) = requested ns.
Proof.
  unfold pending, requested, spawn, increment_shared_counter.
  induction ns as [|n ns IH]; cbn [map fold_right todo]; [reflexivity|].
  now rewrite writes_increments, IH.
Qed.

Lemma writes_nonneg (acts : list action) : 0 <= writes acts.
Proof. induction acts as [|[|] acts IH]; cbn [writes]; lia. Qed.

Lemma pending_nonneg (ts : list thread) : 0 <= pending ts.
Proof.
  unfold pending. induction ts as [|t ts IH]; cbn [fold_right]; [lia|].
  pose proof (writes_nonneg (todo t)). lia.
Qed.

Lemma pending_joined (ts : list thread) :
  forallb finished ts = true -> pending ts = 0.
Proof.
  unfold pending. induction ts as [|t ts IH]; cbn [forallb fold_right];
    [reflexivity|].
  intros H. apply andb_true_iff in H. destruct H as [Ht Hts].
  unfold finished in Ht. destruct (todo t); [|discriminate].
  cbn [writes]. now rewrite (IH Hts).
Qed.

(** A step changes one thread, by one of its accesses. *)
Lemma step_at_inv (i : nat) (c c' : Z) (ts ts' : list thread) :
  step_at i c ts = Some (c', ts') ->
  exists (pre post : list thread) (t t' : thread),
    ts = pre ++ t :: post /\ ts' = pre ++ t' :: post
    /\ step_thread c t = Some (c', t').
Proof.
  revert ts ts'. induction i as [|i IH]; intros [|t rest] ts' H;
    cbn [step_at] in H; try discriminate.
  - destruct (step_thread c t) as [[c1 t1]|] eqn:E; [|discriminate].
    injection H as <- <-. now exists [], rest, t, t1.
  - destruct (step_at i c rest) as [[c1 rest1]|] eqn:E; [|discriminate].
    injection H as <- <-.
    destruct (IH _ _ E) as (pre & post & t0 & t0' & -> & -> & Hs).
    now exists (t :: pre), post, t0, t0'.
Qed.

(** Every step keeps the state within the bound. *)
Lemma step_within (bound : Z) (i : nat) (st st' : world) :
  within bound st -> step i st = Some st' -> within bound st'.
Proof.
  unfold step. intros (H0 & Hsum & Hpos & Hall) H.
  destruct (step_at i (SHARED_COUNTER st) (threads st)) as [[c' ts']|] eqn:E;
    [|discriminate].
  injection H as <-.
  destruct (step_at_inv _ _ _ _ _ E) as (pre & post & t & t' & Hts & -> & Hs).
  rewrite Hts in *. clear Hts E.
  apply Forall_app in Hall. destruct Hall as [Hpre Hall].
  pose proof (Forall_inv Hall) as Ht. apply Forall_inv_tail in Hall.
  unfold within. cbn [SHARED_COUNTER threads].
  rewrite pending_app, pending_cons in *.
  unfold step_thread in Hs.
  destruct (todo t) as [|[|] rest] eqn:Etodo; [discriminate| |].
  - (* a read *)
    injection Hs as <- <-. cbn [todo loaded writes] in *.
    repeat split; try assumption.
    apply Forall_app; split; [exact Hpre|].
    constructor; [cbn [loaded]; lia | exact Hall].
  - (* a write *)
    destruct (loaded t) as [v|] eqn:Eload; [|discriminate].
    injection Hs as <- <-. cbn [todo loaded writes] in *.
    assert (Hweak : forall l : list thread,
               Forall (fun t0 => match loaded t0 with
                                 | Some v0 => 0 <= v0 /\
                                     v0 + (pending pre + (1 + writes rest + pending post)) <= bound
                                 | None => True
                                 end) l ->
               Forall (fun t0 => match loaded t0 with
                                 | Some v0 => 0 <= v0 /\
                                     v0 + (pending pre + (writes rest + pending post)) <= bound
                                 | None => True
                                 end) l).
    { intros l. apply Forall_impl. intros t0. destruct (loaded t0); [lia|auto]. }
    repeat split; try lia.
    apply Forall_app; split; [now apply Hweak|].
    constructor; [exact I | now apply Hweak].
Qed.

Lemma run_within (bound : Z) (schedule : list nat) (st st' : world) :
  within bound st -> run schedule st = Some st' -> within bound st'.
Proof.
  revert st. induction schedule as [|i rest IH]; intros st Hst H; cbn [run] in H.
  - now injection H as <-.
  - destruct (step i st) as [st1|] eqn:E; [|discriminate].
    eapply IH; [|exact H]. eapply step_within; eauto.
Qed.

Lemma start_within (ns : list Z) : within (requested ns) (start 0 ns).
Proof.
  unfold within, start. cbn [SHARED_COUNTER threads].
  rewrite pending_spawn.
  assert (0 <= requested ns)
    by (rewrite <- pending_spawn; apply pending_nonneg).
  split; [lia|]. split; [lia|]. split.
  - right. reflexivity.
  - apply Forall_forall. intros t Hin. apply in_map_iff in Hin.
    destruct Hin as (n & <- & _). exact I.
Qed.

(** X11: Whatever the interleaving, lost updates only lose: once all threads
    are joined the counter holds at most the sum of the increments
    requested, never more, and at least 1 when any were requested. *)
Theorem final_value_bounds (ns : list Z) (schedule : list nat) (v : Z) :
  final_value ns schedule = Some v ->
  Z.min 1 (requested ns) <= v <= requested ns.
Proof.
  unfold final_value.
  destruct (run schedule (start 0 ns)) as [st|] eqn:E; [|discriminate].
  destruct (joined st) eqn:J; [|discriminate].
  intros H. injection H as <-.
  pose proof (run_within _ _ _ _ (start_within ns) E) as (H0 & Hsum & Hpos & _).
  unfold joined in J. rewrite (pending_joined _ J) in *. lia.
Qed.

Lemma final_value_bounds_witness :
  final_value [1; 1] [0; 1; 0; 1]%nat = Some 1
  /\ Z.min 1 (requested [1; 1]) <= 1 <= requested [1; 1].
Proof.
  split; [reflexivity|].
  apply (final_value_bounds [1; 1] [0; 1; 0; 1]%nat 1). reflexivity.
Defined.

Lemma step_alone (bound : Z) (i : nat) (st st' : world) :
  alone bound st -> step i st = Some st' -> alone bound st'.
Proof.
  unfold step. intros (t & Hts & Hsum & Hload) H.
  destruct (step_at i (SHARED_COUNTER st) (threads st)) as [[c' ts']|] eqn:E;
    [|discriminate].
  injection H as <-.
  destruct (step_at_inv _ _ _ _ _ E) as (pre & post & t0 & t' & Hts' & -> & Hs).
  rewrite Hts in Hts'.
  destruct pre as [|p pre]; cbn [app] in Hts'.
  2:{ injection Hts' as _ Hnil. destruct pre; discriminate Hnil. }
  injection Hts' as <- <-. cbn [app].
  exists t'. cbn [SHARED_COUNTER threads]. split; [reflexivity|].
  unfold step_thread in Hs.
  destruct (todo t) as [|[|] rest] eqn:Etodo; [discriminate| |].
  - injection Hs as <- <-. cbn [todo loaded writes] in *. now split.
  - destruct (loaded t) as [v|]; [|discriminate].
    injection Hs as <- <-. cbn [todo loaded writes] in *. split; [lia|exact I].
Qed.

Lemma run_alone_inv (bound : Z) (schedule : list nat) (st st' : world) :
  alone bound st -> run schedule st = Some st' -> alone bound st'.
Proof.
  revert st. induction schedule as [|i rest IH]; intros st Hst H; cbn [run] in H.
  - now injection H as <-.
  - destruct (step i st) as [st1|] eqn:E; [|discriminate].
    eapply IH; [|exact H]. eapply step_alone; eauto.
Qed.

(** X12: A single thread, started and joined as the module's test does, adds
    exactly the increments it was asked for to whatever the counter held:
    with nobody to interleave with, nothing is lost. *)
Theorem single_thread_exact
        (c n : Z) (schedule : list nat) (st : world) :
  run schedule (start c [n]) = Some st ->
  joined st = true ->
  SHARED_COUNTER st = c + Z.max n 0.
Proof.
  intros E J.
  assert (Hstart : alone (c + Z.max n 0) (start c [n])).
  { exists (spawn n). cbn [start map threads SHARED_COUNTER].
    split; [reflexivity|]. split; [|exact I].
    unfold spawn, increment_shared_counter. cbn [todo].
    rewrite writes_increments. lia. }
  destruct (run_alone_inv _ _ _ _ Hstart E) as (t & Hts & Hsum & _).
  unfold joined in J. rewrite Hts in J. cbn [forallb] in J.
  rewrite andb_true_r in J. unfold finished in J.
  destruct (todo t); [|discriminate]. cbn [writes] in Hsum. lia.
Qed.

Lemma single_thread_exact_witness :
  run (repeat 0%nat 200) (start 7 [100])
  = Some (mkWorld 107 [mkThread [] None])
  /\ joined (mkWorld 107 [mkThread [] None]) = true
  /\ SHARED_COUNTER (mkWorld 107 [mkThread [] None]) = 7 + Z.max 100 0.
Proof.
  split; [vm_compute; reflexivity|]. split; [reflexivity|].
  apply (single_thread_exact 7 100 (repeat 0%nat 200)
           (mkWorld 107 [mkThread [] None])).
  - vm_compute. reflexivity.
  - reflexivity.
Defined.

End CounterLaws.

(** ** More on binary64 multiplication and the pricing functions *)

Module FloatLaws.
Import FloatOrder FloatOrderFacts.

(** The sign only shows in the constructor of the result. *)
Lemma binary_round_aux_opp (m e : Z) (l : location) :
  binary_round_aux prec emax true m e l
  = SFopp (binary_round_aux prec emax false m e l).
Proof.
  unfold binary_round_aux.
  destruct (shr_fexp prec emax m e l) as [mrs e'].
  destruct (shr_fexp prec emax _ e' loc_Exact) as [mrs' e''].
  destruct (shr_m mrs'); [reflexivity| |reflexivity].
  destruct (e'' <=? emax - prec); reflexivity.
Qed.

(** Negating a factor negates the product, NaN and zeros included. *)
Lemma SFmul_opp_l (x y : spec_float) :
  SFmul prec emax (SFopp x) y = SFopp (SFmul prec emax x y).
Proof.
  destruct x as [sx | sx | | sx mx ex], y as [sy | sy | | sy my ey];
    cbn [SFmul SFopp]; try reflexivity;
    try (destruct sx, sy; reflexivity).
  destruct sx, sy; cbn [xorb negb];
    rewrite ?binary_round_aux_opp; try reflexivity.
  all: now destruct (binary_round_aux prec emax false
                      (Z.pos (mx * my)) (ex + ey) loc_Exact) as [[|]|[|]| |[|] ? ?].
Qed.

(** A value that is a multiple of the spacing is located exactly. *)
Lemma inbetween_exact (U k m : Z) (l : location) :
  0 < U -> inbetween U (k * U) m l -> m = k /\ l = loc_Exact.
Proof.
  unfold inbetween. intros HU [Hm H].
  destruct l as [|[| |]].
  - split; [|reflexivity].
    apply (Z.mul_cancel_r _ _ U); lia.
  - exfalso.
    assert (2 * k = 2 * m + 1) by (apply (Z.mul_cancel_r _ _ U); lia). lia.
  - exfalso. destruct H as [H1 H2].
    assert (m < k) by (apply (Z.mul_lt_mono_pos_r U); lia).
    assert (2 * k < 2 * m + 1) by (apply (Z.mul_lt_mono_pos_r U); lia). lia.
  - exfalso. destruct H as [H1 H2].
    assert (2 * m + 1 < 2 * k) by (apply (Z.mul_lt_mono_pos_r U); lia).
    assert (k < m + 1) by (apply (Z.mul_lt_mono_pos_r U); lia). lia.
Qed.

Lemma digits2_pos_unique (p : positive) (d : Z) :
  2 ^ (d - 1) <= Z.pos p < 2 ^ d -> Z.pos (digits2_pos p) = d.
Proof.
  intros [Hlo Hhi].
  pose proof (digits2_pos_bounds p) as [Dlo Dhi].
  assert (0 < d).
  { destruct (Z_lt_le_dec 0 d) as [|Hd]; [assumption|exfalso].
    assert (2 ^ d <= 2 ^ 0) by (apply Z.pow_le_mono_r; lia).
    change (2 ^ 0) with 1 in *. lia. }
  destruct (Z_lt_le_dec (Z.pos (digits2_pos p)) d) as [Hlt|Hge].
  - exfalso.
    assert (2 ^ Z.pos (digits2_pos p) <= 2 ^ (d - 1))
      by (apply Z.pow_le_mono_r; lia).
    lia.
  - destruct (Z_lt_le_dec d (Z.pos (digits2_pos p))) as [Hlt|Hle]; [|lia].
    exfalso.
    assert (2 ^ d <= 2 ^ (Z.pos (digits2_pos p) - 1))
      by (apply Z.pow_le_mono_r; lia).
    lia.
Qed.

(** Multiplying a valid positive finite number by 1.0 is exact. *)
Lemma SFmul_one_finite (m : positive) (e : Z) :
  valid_binary (S754_finite false m e) = true ->
  SFmul prec emax (S754_finite false m e)
        (S754_finite false 4503599627370496 (-52))
  = S754_finite false m e.
Proof.
  intros Hv. pose proof Hv as Hcanon.
  cbn [SpecFloat.valid_binary] in Hcanon. unfold bounded, canonical_mantissa in Hcanon.
  apply andb_true_iff in Hcanon. destruct Hcanon as [Hc He].
  apply Z.eqb_eq in Hc. apply Z.leb_le in He.
  cbn [SFmul xorb]. rewrite binary_round_aux_finish.
  unfold shr_fexp. cbn [Zdigits2 shr_record_of_loc].
  pose proof (digits2_pos_bounds m) as [Dlo Dhi].
  assert (Hdig : Z.pos (digits2_pos (m * 4503599627370496))
                 = Z.pos (digits2_pos m) + 52).
  { apply digits2_pos_unique. rewrite Pos2Z.inj_mul.
    change (Z.pos 4503599627370496) with (2 ^ 52).
    replace (Z.pos (digits2_pos m) + 52 - 1)
      with ((Z.pos (digits2_pos m) - 1) + 52) by lia.
    rewrite !Z.pow_add_r by lia.
    split.
    - apply Z.mul_le_mono_nonneg_r; [lia | exact Dlo].
    - apply Z.mul_lt_mono_pos_r; [reflexivity | exact Dhi]. }
  rewrite Hdig.
  replace (Z.pos (digits2_pos m) + 52 + (e + -52))
    with (Z.pos (digits2_pos m) + e) by lia.
  rewrite Hc.
  replace (e - (e + -52)) with 52 by lia.
  pose proof (shr_located 1 (Z.pos (m * 4503599627370496))
                {| shr_m := Z.pos (m * 4503599627370496);
                   shr_r := false; shr_s := false |}
                (e + -52) 52 ltac:(lia) ltac:(lia)) as Hs.
  destruct Hs as [He' Hloc].
  { unfold located, inbetween. cbn. lia. }
  destruct (shr _ (e + -52) 52) as [mrs e'].
  cbn [fst snd] in He', Hloc. subst e'.
  unfold located in Hloc.
  rewrite Pos2Z.inj_mul, Z.mul_1_r in Hloc.
  change (Z.pos 4503599627370496) with (2 ^ 52) in Hloc.
  apply inbetween_exact in Hloc; [|reflexivity].
  destruct Hloc as [-> ->].
  replace (e + -52 + 52) with e by lia.
  cbn [round_nearest_even].
  unfold finish, shr_fexp. cbn [Zdigits2]. rewrite Hc, Z.sub_diag.
  cbn [shr shr_record_of_loc shr_m].
  apply Z.leb_le in He. now rewrite He.
Qed.

(** [x * 1.0] is [x], for every binary64 number. *)
Lemma SFmul_one (x : spec_float) :
  valid_binary x = true ->
  SFmul prec emax x (S754_finite false 4503599627370496 (-52)) = x.
Proof.
  intros Hv.
  destruct x as [[|] | [|] | | [|] m e]; try reflexivity.
  - change (S754_finite true m e) with (SFopp (S754_finite false m e)).
    rewrite SFmul_opp_l, SFmul_one_finite; [reflexivity | exact Hv].
  - now apply SFmul_one_finite.
Qed.

Lemma mul_one (x : float) : (x * 1)%float = x.
Proof.
  apply Prim2SF_inj. rewrite mul_spec.
  change (Prim2SF 1%float) with (S754_finite false 4503599627370496 (-52)).
  apply SFmul_one, Prim2SF_valid.
Qed.

Lemma mul_opp_l (x y : float) : (- x * y)%float = (- (x * y))%float.
Proof.
  apply Prim2SF_inj. rewrite mul_spec, !opp_spec, mul_spec.
  apply SFmul_opp_l.
Qed.

End FloatLaws.

Module PricingLaws.
Import Pricing FloatOrder FloatOrderFacts FloatLaws PricingFacts.
Local Open Scope float_scope.

(** [<=] between non-negative numbers, read on the integer scale. *)
Lemma SFleb_to_valB (B : Z) (a b : spec_float) :
  (1074 <= B)%Z ->
  valid_binary a = true -> valid_binary b = true ->
  nonneg a = true -> SFleb a b = true ->
  nonneg b = true /\ (valB B a <= valB B b)%Z.
Proof.
  intros HB Hva Hvb Hna Hle.
  assert (Hinf : (0 < 2 ^ (1024 + B))%Z) by (apply Z.pow_pos_nonneg; lia).
  destruct a as [sa | [|] | | [|] ma ea]; try discriminate Hna;
    destruct b as [sb | [|] | | [|] mb eb]; try discriminate Hle;
    cbn [nonneg negb valB]; (split; [reflexivity|]).
  - apply Z.le_refl.
  - lia.
  - pose proof (valid_finite_below_inf B HB _ _ _ Hvb). cbn [valB] in *. lia.
  - apply Z.le_refl.
  - pose proof (valid_finite_below_inf B HB _ _ _ Hva). cbn [valB] in *. lia.
  - unfold SFleb in Hle. cbn [SFcompare] in Hle.
    apply valid_finite in Hva, Hvb.
    destruct Hva as (Hea & Hda & Hna'). destruct Hvb as (Heb & Hdb & Hnb').
    pose proof (digits2_pos_bounds ma) as [_ Hma].
    pose proof (digits2_pos_bounds mb) as [Hmb _].
    destruct (Z.compare_spec ea eb) as [E | L | G]; [| |discriminate Hle].
    + subst eb.
      apply Z.mul_le_mono_nonneg_r; [apply Z.pow_nonneg; lia|].
      change (Pos.compare_cont Eq ma mb) with (Z.pos ma ?= Z.pos mb)%Z in Hle.
      destruct (Z.compare_spec (Z.pos ma) (Z.pos mb)); [lia | lia | discriminate Hle].
    + rewrite (Hnb' ltac:(lia)) in Hmb.
      change (2 ^ (53 - 1))%Z with 4503599627370496%Z in Hmb.
      assert (Hma' : (Z.pos ma < 9007199254740992)%Z).
      { apply Z.lt_le_trans with (2 ^ Z.pos (digits2_pos ma))%Z; [assumption|].
        change 9007199254740992%Z with (2 ^ 53)%Z. apply Z.pow_le_mono_r; lia. }
      assert (Eb : (2 ^ (eb + B) = 2 ^ (eb - ea) * 2 ^ (ea + B))%Z).
      { rewrite <- Z.pow_add_r by lia. f_equal. lia. }
      assert (HU : (0 < 2 ^ (ea + B))%Z) by (apply Z.pow_pos_nonneg; lia).
      assert (H2 : (2 ^ 1 <= 2 ^ (eb - ea))%Z) by (apply Z.pow_le_mono_r; lia).
      change (2 ^ 1)%Z with 2%Z in H2.
      rewrite Eb, Z.mul_assoc.
      apply Z.mul_le_mono_nonneg_r; [lia|]. nia.
Qed.

Lemma leb_to_fval (a b : float) :
  fnonneg a = true -> (a <=? b) = true ->
  fnonneg b = true /\ (fval a <= fval b)%Z.
Proof.
  intros Ha Hle. rewrite leb_spec in Hle.
  apply (SFleb_to_valB 1200); auto using Prim2SF_valid. lia.
Qed.

Lemma total_via_compute_discount (s : float) (u : Z) :
  total_with_tax_and_discount s u = compute_discount s u * (1 + TAX).
Proof.
  unfold total_with_tax_and_discount, compute_discount.
  destruct (u =? 1)%Z; [reflexivity|].
  destruct (u =? 2)%Z; [reflexivity|].
  change (1 - 0.0) with 1. now rewrite mul_one.
Qed.

(** X13: The two pricing functions agree: the total is the discounted price of
    [compute_discount], taxed, for every subtotal and every user type. *)
Theorem total_is_taxed_compute_discount (s : float) (u : Z) :
  total_with_tax_and_discount s u = compute_discount s u * (1 + TAX).
Proof. apply total_via_compute_discount. Qed.

(** X14: A negative subtotal is not rejected: the total of [- s] is the total
    of [s], negated, for every binary64 number [s]. *)
Theorem total_of_negated (s : float) (u : Z) :
  total_with_tax_and_discount (- s) u = - total_with_tax_and_discount s u.
Proof.
  unfold total_with_tax_and_discount. now rewrite !mul_opp_l.
Qed.

(** X15: A larger non-negative subtotal never gives a smaller total, roundings
    included. *)
Theorem total_monotone (s1 s2 : float) (u : Z) :
  (0 <=? s1) = true -> (s1 <=? s2) = true ->
  (total_with_tax_and_discount s1 u <=? total_with_tax_and_discount s2 u) = true.
Proof.
  intros H1 H12. apply fnonneg_iff in H1.
  destruct (leb_to_fval _ _ H1 H12) as [H2 Hle].
  rewrite !(total_by_tier _ u).
  apply leb_of_fval; try (now apply total_fnonneg).
  rewrite !total_factors.
  apply (mul_const_fval_mono _ _ _ factor_tax); [reflexivity | lia | | |].
  - destruct (tier_of_user_type u); cbn [factor].
    + apply (mul_const_fnonneg _ _ _ factor_regular); [reflexivity | lia | exact H1].
    + apply (mul_const_fnonneg _ _ _ factor_vip); [reflexivity | lia | exact H1].
    + apply (mul_const_fnonneg _ _ _ factor_none); [reflexivity | lia | exact H1].
  - destruct (tier_of_user_type u); cbn [factor].
    + apply (mul_const_fnonneg _ _ _ factor_regular); [reflexivity | lia | exact H2].
    + apply (mul_const_fnonneg _ _ _ factor_vip); [reflexivity | lia | exact H2].
    + apply (mul_const_fnonneg _ _ _ factor_none); [reflexivity | lia | exact H2].
  - destruct (tier_of_user_type u); cbn [factor].
    + apply (mul_const_fval_mono _ _ _ factor_regular); [reflexivity | lia | | |]; assumption.
    + apply (mul_const_fval_mono _ _ _ factor_vip); [reflexivity | lia | | |]; assumption.
    + apply (mul_const_fval_mono _ _ _ factor_none); [reflexivity | lia | | |]; assumption.
Qed.

Lemma total_monotone_witness :
  (0 <=? 19.99) = true /\ (19.99 <=? 100) = true
  /\ (total_with_tax_and_discount 19.99 1
      <=? total_with_tax_and_discount 100 1) = true.
Proof.
  split; [reflexivity|]. split; [reflexivity|].
  apply (total_monotone 19.99 100 1); reflexivity.
Defined.

Lemma compute_discount_fnonneg (p : float) (u : Z) :
  fnonneg p = true -> fnonneg (compute_discount p u) = true.
Proof.
  intros Hp. unfold compute_discount.
  destruct (u =? 1)%Z.
  - apply (mul_const_fnonneg _ _ _ factor_regular); [reflexivity | lia | exact Hp].
  - destruct (u =? 2)%Z; [|exact Hp].
    apply (mul_const_fnonneg _ _ _ factor_vip); [reflexivity | lia | exact Hp].
Qed.

(** X16: For a non-negative price, [compute_discount] never raises it and never
    makes it negative, and the tax never lowers the discounted price:
    [0 <= compute_discount p u <= p] and
    [compute_discount p u <= total_with_tax_and_discount p u]. *)
Theorem discount_lowers_tax_raises (p : float) (u : Z) :
  (0 <=? p) = true ->
  (0 <=? compute_discount p u) = true
  /\ (compute_discount p u <=? p) = true
  /\ (compute_discount p u <=? total_with_tax_and_discount p u) = true.
Proof.
  intros Hp. apply fnonneg_iff in Hp.
  pose proof (compute_discount_fnonneg p u Hp) as Hd.
  split; [now apply fnonneg_iff|]. split.
  - apply leb_of_fval; [exact Hd | exact Hp |].
    unfold compute_discount.
    destruct (u =? 1)%Z; [|destruct (u =? 2)%Z; [|apply Z.le_refl]].
    + rewrite <- (mul_one p) at 2.
      apply (mul_consts_fval_mono _ _ _ _ _ _ _ factor_regular factor_none);
        [reflexivity | reflexivity | lia | lia | vm_compute; discriminate
        | exact Hp].
    + rewrite <- (mul_one p) at 2.
      apply (mul_consts_fval_mono _ _ _ _ _ _ _ factor_vip factor_none);
        [reflexivity | reflexivity | lia | lia | vm_compute; discriminate
        | exact Hp].
  - rewrite total_via_compute_discount.
    apply leb_of_fval; [exact Hd | |].
    + apply (mul_const_fnonneg _ _ _ factor_tax); [reflexivity | lia | exact Hd].
    + rewrite <- (mul_one (compute_discount p u)) at 1.
      apply (mul_consts_fval_mono _ _ _ _ _ _ _ factor_none factor_tax);
        [reflexivity | reflexivity | lia | lia | vm_compute; discriminate
        | exact Hd].
Qed.

Lemma discount_lowers_tax_raises_witness :
  (0 <=? 100) = true
  /\ (0 <=? compute_discount 100 2) = true
  /\ (compute_discount 100 2 <=? 100) = true
  /\ (compute_discount 100 2 <=? total_with_tax_and_discount 100 2) = true.
Proof.
  split; [reflexivity|].
  apply (discount_lowers_tax_raises 100 2). reflexivity.
Defined.

End PricingLaws.

(** ** More on the SQL texts and on init_db *)

Module OrderStoreLaws.
Import Py Registry OrderStore.

Lemma length_append (s t : string) :
  String.length (s ++ t) = (String.length s + String.length t)%nat.
Proof. induction s as [|c s IH]; cbn; [reflexivity | now rewrite IH]. Qed.

(** A common suffix can be cancelled. *)
Lemma append_cancel_r (s1 s2 t : string) :
  (s1 ++ t = s2 ++ t)%string -> s1 = s2.
Proof.
  revert s2. induction s1 as [|c s1 IH]; intros [|c2 s2] H; cbn in H.
  - reflexivity.
  - exfalso. apply (f_equal String.length) in H. cbn in H.
    rewrite length_append in H. lia.
  - exfalso. apply (f_equal String.length) in H. cbn in H.
    rewrite length_append in H. lia.
  - injection H as -> H. f_equal. now apply IH.
Qed.

(** X17: [find_user] splices the name into the SQL: two names give the same
    query text only when they are the same name, so the text is never a
    fixed statement. *)
Theorem find_user_text_determines_name (u1 u2 : string) :
  find_user u1 = find_user u2 -> u1 = u2.
Proof.
  unfold find_user. intros H.
  apply (append_cancel_r u1 u2 "'").
  cbn in H. repeat (injection H as H). exact H.
Qed.

Lemma find_user_text_determines_name_witness :
  find_user "alice" = find_user "alice" /\ "alice" = "alice".
Proof.
  split; [reflexivity|].
  apply (find_user_text_determines_name "alice" "alice"). reflexivity.
Defined.

(** X18: The same holds of the INSERT of [create_order], whatever the amount
    and however a float is printed. *)
Theorem create_order_text_determines_name
        (float_str : float -> string) (amount : float) (u1 u2 : string) :
  create_order_sql float_str u1 amount = create_order_sql float_str u2 amount ->
  u1 = u2.
Proof.
  unfold create_order_sql. intros H.
  apply (append_cancel_r u1 u2 ("', " ++ float_str amount ++ ")")).
  cbn in H. repeat (injection H as H). exact H.
Qed.

Lemma create_order_text_determines_name_witness :
  create_order_sql (fun _ => "19.99") "alice" 19.99%float
  = create_order_sql (fun _ => "19.99") "alice" 19.99%float
  /\ "alice" = "alice".
Proof.
  split; [reflexivity|].
  apply (create_order_text_determines_name (fun _ => "19.99") 19.99%float
           "alice" "alice").
  reflexivity.
Defined.

Lemma lookup_store_file_other (fs : files) (path other : string) (db : database) :
  String.eqb other path = false ->
  lookup_file (store_file fs path db) other = lookup_file fs other.
Proof.
  intros Hne. induction fs as [|[p db'] rest IH]; cbn [store_file lookup_file].
  - rewrite String.eqb_sym. now rewrite Hne.
  - destruct (String.eqb p path) eqn:E; cbn [lookup_file].
    + apply String.eqb_eq in E. subst p.
      rewrite String.eqb_sym. now rewrite Hne.
    + now rewrite IH.
Qed.

(** X19: A call of [init_db] on a database file that returns found no
    [orders] in the schema of that file, in any spelling of the name, and
    has left the file with [orders] added to what it held. *)
Theorem init_db_creates_orders (db_path : string) (fs fs1 : files) :
  private db_path = false ->
  init_db db_path fs = Returned fs1 ->
  lookup_file fs1 db_path = Some ("orders" :: connect fs db_path)
  /\ existsb (same_name "orders") (connect fs db_path) = false.
Proof.
  unfold init_db, commit_close, create_table. intros Hfile.
  rewrite Hfile.
  destruct (existsb (same_name "orders") (connect fs db_path)); cbn [bind];
    intros H; [discriminate H|].
  injection H as <-. split; [apply OrderStoreFacts.lookup_store_file|].
  reflexivity.
Qed.

Lemma init_db_creates_orders_witness :
  private "orders.db" = false
  /\ init_db "orders.db" [("users.db", ["users"])]
     = Returned [("users.db", ["users"]); ("orders.db", ["orders"])]
  /\ lookup_file [("users.db", ["users"]); ("orders.db", ["orders"])] "orders.db"
     = Some ("orders" :: connect [("users.db", ["users"])] "orders.db")
  /\ existsb (same_name "orders") (connect [("users.db", ["users"])] "orders.db")
     = false.
Proof.
  split; [reflexivity|]. split; [reflexivity|].
  apply (init_db_creates_orders "orders.db" [("users.db", ["users"])]
           [("users.db", ["users"]); ("orders.db", ["orders"])]);
    reflexivity.
Defined.

(** A file whose schema has the name in another spelling is refused as
    well, and is left as it was. *)
Example init_db_other_spelling :
  init_db "orders.db" [("orders.db", ["ORDERS"])] = Raised OperationalError.
Proof. reflexivity. Qed.

(** X20: On every database file, whatever the files hold, a call of [init_db]
    that follows one that returned raises [OperationalError]: the function
    can set a file up once and never again.  (The private names
    [":memory:"] and the empty string are no files: there every call
    returns, see [init_db_private].) *)
Theorem init_db_only_once (db_path : string) (fs fs1 : files) :
  private db_path = false ->
  init_db db_path fs = Returned fs1 ->
  init_db db_path fs1 = Raised OperationalError.
Proof.
  intros Hfile Hfirst.
  exact (OrderStoreFacts.init_db_twice_raises db_path fs fs1 Hfile Hfirst).
Qed.

Lemma init_db_only_once_witness :
  private "orders.db" = false
  /\ init_db "orders.db" [] = Returned [("orders.db", ["orders"])]
  /\ init_db "orders.db" [("orders.db", ["orders"])] = Raised OperationalError.
Proof.
  split; [reflexivity|]. split; [reflexivity|].
  apply (init_db_only_once "orders.db" [] [("orders.db", ["orders"])]);
    reflexivity.
Defined.

End OrderStoreLaws.

(** ** UserManager: copies and aliases *)

Module ObjectsLaws.
Import Py Objects.

Lemma nth_update_nth {A : Type} (f : A -> A) (d : A) (l : list A) (i j : nat) :
  nth j (update_nth i f l) d
  = if Nat.eqb i j
    then (if Nat.ltb i (List.length l) then f (nth i l d) else d)
    else nth j l d.
Proof.
  revert i j. induction l as [|x rest IH]; intros i j.
  - destruct i as [|i], j as [|j]; cbn [update_nth nth List.length Nat.eqb];
      try reflexivity.
    now destruct (Nat.eqb i j).
  - destruct i as [|i], j as [|j]; cbn [update_nth nth List.length Nat.eqb];
      try reflexivity.
    rewrite IH. destruct (Nat.eqb i j); [|reflexivity].
    change (S i <? S (List.length rest))%nat with (i <? List.length rest)%nat.
    reflexivity.
Qed.

Lemma length_update_nth {A : Type} (f : A -> A) (l : list A) (i : nat) :
  List.length (update_nth i f l) = List.length l.
Proof.
  revert i. induction l as [|x rest IH]; intros [|i]; cbn; auto.
Qed.

(** X21: [get_all_users] hands out a new list: appending to it leaves the
    registry as it was, and until then it shows the registry's records. *)
Theorem get_all_users_is_a_copy (h : heap) (self x : ref) :
  (self < List.length (lists h))%nat ->
  view (fst (get_all_users h self)) (snd (get_all_users h self)) = view h self
  /\ view (list_append (fst (get_all_users h self))
                       (snd (get_all_users h self)) x) self
     = view h self.
Proof.
  intros Hself. unfold get_all_users, list_copy, view, list_at, dict_at.
  cbn [fst snd lists dicts list_append].
  split.
  - rewrite app_nth2 by lia. rewrite Nat.sub_diag. reflexivity.
  - rewrite nth_update_nth.
    destruct (Nat.eqb (List.length (lists h)) self) eqn:E.
    + apply Nat.eqb_eq in E. lia.
    + now rewrite app_nth1 by lia.
Qed.

Lemma get_all_users_is_a_copy_witness :
  (0 < List.length (lists sample_heap))%nat
  /\ view (fst (get_all_users sample_heap 0%nat))
          (snd (get_all_users sample_heap 0%nat))
     = view sample_heap 0%nat
  /\ view (list_append (fst (get_all_users sample_heap 0%nat))
                       (snd (get_all_users sample_heap 0%nat)) 1%nat) 0%nat
     = view sample_heap 0%nat.
Proof.
  split; [simpl; lia|].
  apply (get_all_users_is_a_copy sample_heap 0%nat 1%nat). simpl. lia.
Defined.

(** X22: [get_all_users_old] hands out the registry's own list: what a caller
    appends to it is registered. *)
Theorem get_all_users_old_is_an_alias (h : heap) (self x : ref) :
  (self < List.length (lists h))%nat ->
  view (list_append (fst (get_all_users_old h self))
                    (snd (get_all_users_old h self)) x) self
  = view h self ++ [dict_at h x].
Proof.
  intros Hself. unfold get_all_users_old, view, list_at, dict_at.
  cbn [fst snd lists dicts list_append].
  rewrite nth_update_nth, Nat.eqb_refl.
  apply Nat.ltb_lt in Hself. rewrite Hself.
  now rewrite map_app.
Qed.

Lemma get_all_users_old_is_an_alias_witness :
  (0 < List.length (lists sample_heap))%nat
  /\ view (list_append (fst (get_all_users_old sample_heap 0%nat))
                       (snd (get_all_users_old sample_heap 0%nat)) 1%nat) 0%nat
     = view sample_heap 0%nat ++ [dict_at sample_heap 1%nat].
Proof.
  split; [simpl; lia|].
  apply (get_all_users_old_is_an_alias sample_heap 0%nat 1%nat). simpl. lia.
Defined.

Lemma has_username_nil (username : string) :
  Registry.has_username [] username = false.
Proof. reflexivity. Qed.

(** A matching dict is an object of the store. *)
Lemma has_username_valid (h : heap) (a : ref) (username : string) :
  Registry.has_username (dict_at h a) username = true ->
  (a < List.length (dicts h))%nat.
Proof.
  intros H. destruct (Nat.lt_ge_cases a (List.length (dicts h))) as [|Hge];
    [assumption|exfalso].
  unfold dict_at in H. rewrite nth_overflow in H by exact Hge.
  discriminate H.
Qed.

Lemma first_match_has (h : heap) (username : string) (rs : list ref) (a : ref) :
  first_match h username rs = Some a ->
  In a rs /\ Registry.has_username (dict_at h a) username = true.
Proof.
  induction rs as [|r rest IH]; cbn [first_match]; [discriminate|].
  destruct (Registry.has_username (dict_at h r) username) eqn:E.
  - intros H. injection H as <-. split; [now left | exact E].
  - intros H. destruct (IH H) as [Hin Hu]. split; [now right | exact Hu].
Qed.

Lemma dict_at_setitem (h : heap) (a r : ref) (k : string) (v : pyval) :
  (a < List.length (dicts h))%nat ->
  dict_at (dict_setitem h a k v) r
  = if Nat.eqb a r then dict_set (dict_at h a) k v else dict_at h r.
Proof.
  intros Ha. unfold dict_at, dict_setitem. cbn [dicts].
  rewrite nth_update_nth. apply Nat.ltb_lt in Ha. now rewrite Ha.
Qed.

Lemma view_after_update
        (h : heap) (self l : ref) (username : string) (age : pyval) :
  view (fst (update_user_age h self username age)) l
  = match first_match h username (list_at h self) with
    | Some a =>
        map (fun r => if Nat.eqb a r
                      then dict_set (dict_at h a) "age" age
                      else dict_at h r)
            (list_at h l)
    | None => view h l
    end.
Proof.
  unfold update_user_age.
  destruct (first_match h username (list_at h self)) as [a|] eqn:E;
    cbn [fst]; [|reflexivity].
  destruct (first_match_has _ _ _ _ E) as [_ Hu].
  apply has_username_valid in Hu.
  unfold view. change (list_at (dict_setitem h a "age" age) l) with (list_at h l).
  apply map_ext. intros r. now apply dict_at_setitem.
Qed.


(** X24: The copy of [get_all_users] is shallow: it holds the registry's own
    dict objects, so an age updated later through the manager shows in a
    copy taken before. *)
Theorem get_all_users_copy_is_shallow
        (h : heap) (self : ref) (username : string) (age : pyval) :
  (self < List.length (lists h))%nat ->
  view (fst (update_user_age (fst (get_all_users h self)) self username age))
       (snd (get_all_users h self))
  = view (fst (update_user_age (fst (get_all_users h self)) self username age))
         self.
Proof.
  intros Hself. rewrite !view_after_update.
  assert (Hsame : list_at (fst (get_all_users h self)) (snd (get_all_users h self))
                  = list_at (fst (get_all_users h self)) self).
  { unfold get_all_users, list_copy, list_at. cbn [fst snd lists].
    rewrite app_nth2 by lia. rewrite Nat.sub_diag. cbn [nth].
    now rewrite app_nth1 by lia. }
  unfold view. rewrite Hsame. reflexivity.
Qed.

Lemma get_all_users_copy_is_shallow_witness :
  (0 < List.length (lists sample_heap))%nat
  /\ view (fst (update_user_age (fst (get_all_users sample_heap 0%nat)) 0%nat
                  "bob" (PInt 41)))
          (snd (get_all_users sample_heap 0%nat))
     = view (fst (update_user_age (fst (get_all_users sample_heap 0%nat)) 0%nat
                    "bob" (PInt 41)))
            0%nat.
Proof.
  split; [simpl; lia|].
  apply (get_all_users_copy_is_shallow sample_heap 0%nat "bob" (PInt 41)).
  simpl. lia.
Defined.





(** A dict registered twice is one object: its age changes at both
    places, which the list of records alone would not show. *)
Example update_user_age_aliased :
  view (fst (update_user_age sample_heap 0%nat "bob" (PInt 41))) 0%nat
  = [ [("username", PStr "bob"); ("age", PInt 41)];
      [("username", PStr "bob"); ("age", PInt 41)];
      [("username", PStr "eve")] ]
  /\ fst (Registry.update_user_age (view sample_heap 0%nat) "bob" (PInt 41))
     = [ [("username", PStr "bob"); ("age", PInt 41)];
         [("username", PStr "bob")];
         [("username", PStr "eve")] ].
Proof. split; reflexivity. Qed.



(** X26: [add_user] on objects shows as [Registry.add_user] on the records. *)
Theorem add_user_on_objects (h : heap) (self : ref) (u : option ref) :
  (self < List.length (lists h))%nat ->
  view (add_user h self u) self
  = Registry.add_user (view h self) (option_map (dict_at h) u)
  /\ dicts (add_user h self u) = dicts h.
Proof.
  intros Hself. destruct u as [a|]; cbn [add_user option_map Registry.add_user];
    [|split; reflexivity].
  destruct (dict_truthy (dict_at h a)); [|split; reflexivity].
  split; [|reflexivity].
  unfold view, list_at, dict_at. cbn [lists dicts list_append].
  rewrite nth_update_nth, Nat.eqb_refl.
  apply Nat.ltb_lt in Hself. rewrite Hself. now rewrite map_app.
Qed.

Lemma add_user_on_objects_witness :
  (0 < List.length (lists sample_heap))%nat
  /\ view (add_user sample_heap 0%nat (Some 1%nat)) 0%nat
     = Registry.add_user (view sample_heap 0%nat)
         (option_map (dict_at sample_heap) (Some 1%nat))
  /\ dicts (add_user sample_heap 0%nat (Some 1%nat)) = dicts sample_heap.
Proof.
  split; [simpl; lia|].
  apply (add_user_on_objects sample_heap 0%nat (Some 1%nat)). simpl. lia.
Defined.

End ObjectsLaws.

(** ** deprecated_formatter: the default list is shared by the calls *)

Module FormatterLaws.
Import Py Formatter.

Section WithBuiltins.

Variable py_str : pyval -> text.
Variable upper : text -> text.

(** X27: The calls that omit [extras] write to one list: after a run of such
    calls the default list holds, after what it held before, the length
    of every text returned (its number of code points), in call order; so
    a call finds the entries of all earlier calls.  The texts returned do
    not depend on the list. *)
Theorem default_extras_accumulate
        (default : list nat) (inputs : list (pyval * bool)) :
  format_all py_str upper default inputs
  = (map (fun i => formatted py_str upper (fst i) (snd i)) inputs,
     default
       ++ map (fun i => len (formatted py_str upper (fst i) (snd i)))
              inputs).
Proof.
  revert default. induction inputs as [|[data uppercase] rest IH]; intros default.
  - cbn. now rewrite app_nil_r.
  - cbn [format_all deprecated_formatter]. rewrite IH.
    cbn [map fst snd]. now rewrite <- app_assoc.
Qed.

End WithBuiltins.

End FormatterLaws.

(** ** random_backoff: the bounds of the sleep *)

Module BackoffLaws.
Import FloatOrder FloatOrderFacts Backoff.

(** A smaller scaled value is a smaller number. *)
Lemma SFltb_of_valB (B : Z) (a b : spec_float) :
  1074 <= B ->
  valid_binary a = true -> valid_binary b = true ->
  nonneg a = true -> nonneg b = true ->
  valB B a < valB B b -> SFltb a b = true.
Proof.
  intros HB Hva Hvb Hna Hnb Hlt.
  pose proof (valB_nonneg B b) as Hb0.
  destruct a as [sa | [|] | | [|] ma ea]; try discriminate Hna.
  - (* zero *)
    destruct b as [sb | [|] | | [|] mb eb]; try discriminate Hnb;
      try reflexivity.
    cbn [valB] in Hlt. exfalso. revert Hlt. apply Z.lt_irrefl.
  - (* infinity *)
    exfalso.
    destruct b as [sb | [|] | | [|] mb eb]; try discriminate Hnb.
    + cbn [valB] in Hlt.
      assert (0 < 2 ^ (1024 + B)) by (apply Z.pow_pos_nonneg; lia).
      clear - H Hlt. lia.
    + revert Hlt. apply Z.lt_irrefl.
    + pose proof (valid_finite_below_inf B HB _ _ _ Hvb) as [_ Hb].
      change (2 ^ (1024 + B)) with (valB B (S754_infinity false)) in Hb.
      clear - Hlt Hb. lia.
  - (* finite *)
    destruct b as [sb | [|] | | [|] mb eb]; try discriminate Hnb;
      try reflexivity.
    + exfalso. pose proof (valid_finite_below_inf B HB _ _ _ Hva) as [Ha _].
      cbn [valB] in Hlt, Ha. clear - Hlt Ha. lia.
    + unfold SFltb. cbn [SFcompare]. cbn [valB] in Hlt.
      apply valid_finite in Hva, Hvb.
      destruct Hva as (Hea & Hda & Hna'). destruct Hvb as (Heb & Hdb & Hnb').
      pose proof (digits2_pos_bounds ma) as [Hma _].
      pose proof (digits2_pos_bounds mb) as [_ Hmb].
      destruct (Z.compare_spec ea eb) as [E | L | G]; [| reflexivity |].
      * subst eb.
        assert (HU : 0 < 2 ^ (ea + B)) by (apply Z.pow_pos_nonneg; lia).
        apply Z.mul_lt_mono_pos_r in Hlt; [|assumption].
        change (Pos.compare_cont Eq ma mb) with (Z.pos ma ?= Z.pos mb).
        destruct (Z.compare_spec (Z.pos ma) (Z.pos mb)); [lia | reflexivity | lia].
      * exfalso.
        rewrite (Hna' ltac:(lia)) in Hma.
        change (2 ^ (53 - 1)) with 4503599627370496 in Hma.
        assert (Hmb' : Z.pos mb < 9007199254740992).
        { apply Z.lt_le_trans with (2 ^ Z.pos (digits2_pos mb)); [assumption|].
          change 9007199254740992 with (2 ^ 53). apply Z.pow_le_mono_r; lia. }
        assert (Ea : 2 ^ (ea + B) = 2 ^ (ea - eb) * 2 ^ (eb + B)).
        { rewrite <- Z.pow_add_r by lia. f_equal. lia. }
        assert (HU : 0 < 2 ^ (eb + B)) by (apply Z.pow_pos_nonneg; lia).
        assert (H2 : 2 ^ 1 <= 2 ^ (ea - eb)) by (apply Z.pow_le_mono_r; lia).
        change (2 ^ 1) with 2 in H2.
        rewrite Ea, Z.mul_assoc in Hlt.
        apply Z.mul_lt_mono_pos_r in Hlt; [|assumption].
        nia.
Qed.

(** A non-negative number below 1.0 is at most the largest float below
    1.0, which is [(2 ^ 53 - 1) * 2 ^ (-53)]. *)
Lemma below_one (B : Z) (x : spec_float) :
  1074 <= B ->
  valid_binary x = true -> nonneg x = true ->
  SFltb x (S754_finite false 4503599627370496 (-52)) = true ->
  valB B x <= valB B (S754_finite false 9007199254740991 (-53)).
Proof.
  intros HB Hv Hn Hlt.
  destruct x as [s | [|] | | [|] m e]; try discriminate Hn; try discriminate Hlt;
    cbn [valB].
  - apply Z.mul_nonneg_nonneg; [lia | apply Z.pow_nonneg; lia].
  - unfold SFltb in Hlt. cbn [SFcompare] in Hlt.
    apply valid_finite in Hv. destruct Hv as (He & Hd & Hnorm).
    pose proof (digits2_pos_bounds m) as [Hlo Hhi].
    assert (Hm : Z.pos m <= 9007199254740991).
    { assert (2 ^ Z.pos (digits2_pos m) <= 2 ^ 53)
        by (apply Z.pow_le_mono_r; lia).
      change (2 ^ 53) with 9007199254740992 in *. lia. }
    destruct (Z.compare_spec e (-52)) as [E | L | G]; [| |discriminate Hlt].
    + exfalso. subst e.
      rewrite (Hnorm ltac:(lia)) in Hlo.
      change (2 ^ (53 - 1)) with 4503599627370496 in Hlo.
      pose proof (Pos.compare_spec m 4503599627370496) as Hc.
      unfold Pos.compare in Hc.
      destruct Hc as [Hc | Hc | Hc]; try discriminate Hlt.
      apply Pos2Z.pos_lt_pos in Hc. clear - Hc Hlo. revert Hc Hlo.
      generalize (Z.pos m). intros; lia.
    + apply Z.mul_le_mono_nonneg; [lia | exact Hm | apply Z.pow_nonneg; lia |].
      apply Z.pow_le_mono_r; lia.
Qed.

(** X28: For every value [random.random()] can return, [random_backoff] sleeps
    a time that is not negative and is below 3 seconds, the rounding of
    the product included. *)
Theorem random_backoff_bounds (r : float) :
  (0 <=? r)%float = true -> (r <? 1)%float = true ->
  (0 <=? random_backoff r)%float = true
  /\ (random_backoff r <? 3)%float = true.
Proof.
  intros H0 H1. apply fnonneg_iff in H0. unfold random_backoff.
  assert (H3 : Prim2SF 3%float = S754_finite false 6755399441055744 (-51))
    by reflexivity.
  pose proof (mul_const_fnonneg _ _ _ H3 ltac:(reflexivity) ltac:(lia) r H0)
    as Hnn.
  split; [now apply fnonneg_iff|].
  rewrite ltb_spec in H1.
  change (Prim2SF 1%float) with (S754_finite false 4503599627370496 (-52)) in H1.
  assert (Hr : fval r <= fval 0x1.fffffffffffffp-1%float).
  { unfold fval.
    change (Prim2SF 0x1.fffffffffffffp-1%float)
      with (S754_finite false 9007199254740991 (-53)).
    apply below_one; auto using Prim2SF_valid. lia. }
  pose proof (mul_const_fval_mono _ _ _ H3 ltac:(reflexivity) ltac:(lia)
                r 0x1.fffffffffffffp-1%float H0 ltac:(reflexivity) Hr) as Hle.
  rewrite ltb_spec.
  apply (SFltb_of_valB 1200);
    [ lia | apply Prim2SF_valid | apply Prim2SF_valid | exact Hnn
    | reflexivity | ].
  eapply Z.le_lt_trans; [exact Hle|]. vm_compute. reflexivity.
Qed.

Lemma random_backoff_bounds_witness :
  (0 <=? patched_random)%float = true /\ (patched_random <? 1)%float = true
  /\ (0 <=? random_backoff patched_random)%float = true
  /\ (random_backoff patched_random <? 3)%float = true.
Proof.
  split; [reflexivity|]. split; [reflexivity|].
  apply (random_backoff_bounds patched_random); reflexivity.
Defined.

End BackoffLaws.
